(** * compmorph, hw2: a Russian/Czech cognate matcher

    A shallow embedding of [hw2/hw2.py]: the two normalisers
    ([transliteration], [czech_processing]), the memoised edit distance
    ([levenshtein] under [functools.lru_cache]), the reader of the word
    tables ([get_words]) and the matcher ([translate_words]), and of the
    counting part of the suffix trie of [project/project.py], followed by the
    properties of the specification and by further properties of the code. *)

From Stdlib Require Import ZArith NArith List Lia Permutation.
From Stdlib Require Import Strings.String Strings.Ascii Strings.Byte.
From stdpp Require Import base option list sorting gmap.

Local Open Scope Z_scope.

(** ** Python strings

    A Python [str] is a sequence of Unicode code points; [len] counts code
    points and indexing yields one-character strings. *)

Module PyStr.

Definition char := N.
Definition str := list char.

Definition len (s : str) : Z := Z.of_nat (length s).

(** String literals of this file are written as in the Python source and
    decoded from their UTF-8 bytes into code points. *)
Fixpoint utf8_decode (bs : list N) : str :=
  match bs with
  | [] => []
  | b0 :: r0 =>
    if (b0 <? 0x80)%N then b0 :: utf8_decode r0 else
    match r0 with
    | [] => [b0]
    | b1 :: r1 =>
      if (b0 <? 0xE0)%N then
        N.lor (N.shiftl (N.land b0 0x1F) 6) (N.land b1 0x3F) :: utf8_decode r1
      else
      match r1 with
      | [] => [b0; b1]
      | b2 :: r2 =>
        if (b0 <? 0xF0)%N then
          N.lor (N.shiftl (N.land b0 0x0F) 12)
            (N.lor (N.shiftl (N.land b1 0x3F) 6) (N.land b2 0x3F))
          :: utf8_decode r2
        else
        match r2 with
        | [] => [b0; b1; b2]
        | b3 :: r3 =>
          N.lor (N.shiftl (N.land b0 0x07) 18)
            (N.lor (N.shiftl (N.land b1 0x3F) 12)
               (N.lor (N.shiftl (N.land b2 0x3F) 6) (N.land b3 0x3F)))
          :: utf8_decode r3
        end
      end
    end
  end.

Definition u (s : string) : str :=
  utf8_decode (map Byte.to_N (list_byte_of_string s)).

(** [old] is a prefix of [s]. *)
Fixpoint startswith (s old : str) {struct old} : bool :=
  match old, s with
  | [], _ => true
  | _ :: _, [] => false
  | a :: old', b :: s' => (a =? b)%N && startswith s' old'
  end.

(** [str.replace(old, new)] for a non-empty [old]: scan from the left; at
    each match emit [new] and jump over the match ([skip] counts the
    characters of the match still to jump over). *)
Fixpoint replace_from (old new : str) (skip : nat) (s : str) : str :=
  match s with
  | [] => []
  | ch :: rest =>
    match skip with
    | S k => replace_from old new k rest
    | O =>
      if startswith s old
      then new ++ replace_from old new (Nat.pred (length old)) rest
      else ch :: replace_from old new O rest
    end
  end.

(** [s.replace(old, new)]; with an empty [old], Python puts [new] before
    every character and at the end. *)
Definition replace (old new : str) (s : str) : str :=
  match old with
  | [] => new ++ flat_map (fun ch => ch :: new) s
  | _ :: _ => replace_from old new O s
  end.

(** [sub in s]: [sub] occurs in [s] as a substring. *)
Definition contains (sub s : str) : Prop := exists l1 l2, s = l1 ++ sub ++ l2.

(** No character [p] of [s] is directly followed by [q]. *)
Fixpoint no_pair (p q : char) (s : str) : bool :=
  match s with
  | [] => true
  | a :: rest =>
    negb ((a =? p)%N && bool_decide (head rest = Some q)) && no_pair p q rest
  end.

End PyStr.
Export PyStr.

Notation "x |> f" := (f x) (at level 45, left associativity, only parsing).

(** ** Normaliser *)

Definition czech_processing (word : str) : str :=
  word
  (* remove vowel length *)
  |> replace (u "á") (u "a")
  |> replace (u "í") (u "i")
  |> replace (u "ó") (u "o")
  |> replace (u "ú") (u "u")
  |> replace (u "é") (u "e")
  |> replace (u "ý") (u "y")
  |> replace (u "ů") (u "u")
  (* ch is x in Russian *)
  |> replace (u "ch") (u "x")
  (* separate palatisation (like in Russian) *)
  |> replace (u "ň") (u "n'")
  |> replace (u "č") (u "c'")
  |> replace (u "ď") (u "d'")
  |> replace (u "ě") (u "e")
  |> replace (u "ř") (u "r'")
  |> replace (u "ť") (u "t'").

(** The two letter-by-letter tables that the chain of [czech_processing]
    amounts to: the long vowels, shortened, and the palatalised letters,
    written as a letter and a mark. *)

Definition ord (s : string) : char := hd 0%N (u s).

Definition strip_length (c : char) : char :=
  if (c =? ord "á")%N then ord "a"
  else if (c =? ord "í")%N then ord "i"
  else if (c =? ord "ó")%N then ord "o"
  else if (c =? ord "ú")%N then ord "u"
  else if (c =? ord "é")%N then ord "e"
  else if (c =? ord "ý")%N then ord "y"
  else if (c =? ord "ů")%N then ord "u"
  else c.

Definition palatalise (c : char) : str :=
  if (c =? ord "ň")%N then u "n'"
  else if (c =? ord "č")%N then u "c'"
  else if (c =? ord "ď")%N then u "d'"
  else if (c =? ord "ě")%N then u "e"
  else if (c =? ord "ř")%N then u "r'"
  else if (c =? ord "ť")%N then u "t'"
  else [c].

Section Normaliser.

(** Python's [str.lower] on a one-character string.  It is a built-in of the
    interpreter (a table over all of Unicode, and the result can be longer
    than one character), so the development is parametric in it. *)
Variable lower : char -> str.

(** A dict literal: later bindings of a key replace earlier ones. *)
Definition dict (kvs : list (str * str)) : gmap str str :=
  foldl (fun m kv => <[kv.1 := kv.2]> m) ∅ kvs.

Definition tr : gmap str str := dict [
  (u "а", u "a");
  (u "б", u "b");
  (u "в", u "v");
  (u "г", u "g");
  (u "д", u "d");
  (u "е", u "e");
  (u "ё", u "ë");
  (u "ж", u "ž");
  (u "з", u "z");
  (u "и", u "i");
  (u "і", u "i");
  (u "й", u "j");
  (u "к", u "k");
  (u "л", u "l");
  (u "м", u "m");
  (u "н", u "n");
  (u "о", u "o");
  (u "п", u "p");
  (u "р", u "r");
  (u "с", u "s");
  (u "т", u "t");
  (u "у", u "u");
  (u "ф", u "f");
  (u "х", u "x");
  (u "ц", u "c");
  (u "ч", u "č");
  (u "ш", u "š");
  (u "щ", u "šč");
  (u "ъ", u "ʺ");
  (u "ь", u "'"); (* palatization *)
  (u "ы", u "y");
  (u "ь", u "ʹ");
  (u "э", u "è");
  (u "ю", u "ju");
  (u "я", u "ja")
].

(** [''.join(tr.get(char.lower(), char) for char in russian)] *)
Definition transliteration (russian : str) : str :=
  flat_map (fun char => default [char] (tr !! lower char)) russian.

End Normaliser.

(** ** Distance engine *)

Definition chr (a : ascii) : char := N_of_ascii a.
Arguments chr a%_char.

Definition substitution_cost (ruchar cschar : char) : Z :=
  if bool_decide ((ruchar, cschar) ∈
       [(chr "i", chr "y"); (chr "g", chr "h"); (chr "y", chr "i")])
  then 0 else 1.

(** The body of [levenshtein]; the recursion is on the two suffixes.  This is
    the function without its cache; [levenshtein_cached] below is the
    function as it runs, and [levenshtein_cached_returns] relates the two.
    Python's recursion limit is not modelled. *)
Fixpoint levenshtein (source : str) : str -> Z :=
  fix lev_target (target : str) : Z :=
    match source, target with
    | [], _ | _, [] => len source + len target
    | s0 :: source', t0 :: target' =>
      if (s0 =? t0)%N then levenshtein source' target'
      else
        let insert := lev_target target' + 1 in
        let delete := levenshtein source' target + 1 in
        let substitute := levenshtein source' target' + substitution_cost s0 t0 in
        Z.min (Z.min insert delete) substitute
    end.

(** ** Frequency tables

    A [collections.Counter] is a dict: its items are kept in insertion
    order, which is what decides ties in [most_common]. *)

Definition Counter := list (str * Z).

(** [sorted(items, key=itemgetter(1), reverse=True)]: descending counts,
    stable (equal counts keep their order in [items]). *)
Fixpoint insert_desc (x : str * Z) (l : list (str * Z)) : list (str * Z) :=
  match l with
  | [] => [x]
  | y :: l' => if x.2 <? y.2 then y :: insert_desc x l' else x :: l
  end.

Definition sorted_desc (items : list (str * Z)) : list (str * Z) :=
  foldr insert_desc [] items.

(** [Counter.most_common(n)]: everything when [n] is [None], otherwise
    [heapq.nlargest(n, items, key=itemgetter(1))], the first [n] items of
    the sorted list (none for [n <= 0]). *)
Definition most_common (n : option Z) (c : Counter) : list (str * Z) :=
  match n with
  | None => sorted_desc c
  | Some n => take (Z.to_nat n) (sorted_desc c)
  end.

(** ** Reading the words

    [get_words] builds a table from the lines of a file.  The lines are the
    input here (opening and decoding the file is left to the caller), and the
    built-ins it relies on are parameters: the character classes of
    [str.rstrip], [str.isalpha] and of the regular expression (word
    characters and digits), and [str.lower] on strings. *)

(** [counter[elem]]: 0 for a word that is not in the table. *)
Fixpoint counter_get (c : Counter) (elem : str) : Z :=
  match c with
  | [] => 0
  | (k, v) :: c' => if decide (k = elem) then v else counter_get c' elem
  end.

(** [counter[elem] = counter.get(elem, 0) + 1]: a new word goes to the end. *)
Fixpoint counter_incr (elem : str) (c : Counter) : Counter :=
  match c with
  | [] => [(elem, 1)]
  | (k, v) :: c' =>
    if decide (k = elem) then (k, v + 1) :: c' else (k, v) :: counter_incr elem c'
  end.

(** [Counter.update(iterable)] *)
Definition update (c : Counter) (iterable : list str) : Counter :=
  foldl (fun c elem => counter_incr elem c) c iterable.

(** How often [elem] is in a list of words. *)
Fixpoint occurrences (elem : str) (ws : list str) : Z :=
  match ws with
  | [] => 0
  | w :: ws' => (if decide (w = elem) then 1 else 0) + occurrences elem ws'
  end.

Section GetWords.

Variables is_space is_alpha is_word is_digit : char -> bool.
Variable str_lower : str -> str.

Fixpoint lstrip (s : str) : str :=
  match s with
  | [] => []
  | c :: s' => if is_space c then lstrip s' else s
  end.

(** [s.rstrip()] *)
Definition rstrip (s : str) : str := rev (lstrip (rev s)).

(** [s.isalpha()]: at least one character, and all of them alphabetic. *)
Definition isalpha (s : str) : bool :=
  negb (bool_decide (s = [])) && forallb is_alpha s.

(** The character class [[^\W\d_]]. *)
Definition is_letter (c : char) : bool :=
  is_word c && negb (is_digit c) && negb (c =? chr "_")%N.

(** [re.findall(r'[^\W\d_]+', line, re.UNICODE)]: the runs of letters, from
    left to right; [run] is the run being read, last character first. *)
Fixpoint findall_run (line run : str) : list str :=
  match line with
  | [] => match run with [] => [] | _ :: _ => [rev run] end
  | c :: rest =>
    if is_letter c then findall_run rest (c :: run)
    else match run with [] => [] | _ :: _ => [rev run] end ++ findall_run rest []
  end.

Definition findall_letters (line : str) : list str := findall_run line [].

Definition get_words (lines : list str) (gzipped : bool) : Counter :=
  if gzipped then
    (* Russian *)
    update []
      (map (fun line => str_lower (rstrip line))
           (List.filter (fun line => isalpha (rstrip line)) lines))
  else
    (* Czech *)
    foldl (fun words line => update words (map str_lower (findall_letters line)))
          [] lines.

(** The strings that [get_words] counts, in the order in which it reads
    them. *)
Definition words_read (lines : list str) (gzipped : bool) : list str :=
  if gzipped then
    map (fun line => str_lower (rstrip line))
        (List.filter (fun line => isalpha (rstrip line)) lines)
  else
    flat_map (fun line => map str_lower (findall_letters line)) lines.

End GetWords.

(** ** Matcher *)

(** The value of [best]: an [int], or [float("Inf")]. *)
Inductive num := Int (z : Z) | Inf.

Definition num_ltb (a b : num) : bool :=
  match a, b with
  | Int x, Int y => x <? y
  | Int _, Inf => true
  | Inf, _ => false
  end.
Definition num_gtb (a b : num) : bool := num_ltb b a.
Definition num_geb (a b : num) : bool := negb (num_ltb a b).

(** The [for c_word in sorted_czech] loop of [translate_words], with the
    loop variables [best] and [candidate]. *)
Fixpoint scan (r_trans : str) (sorted_czech : list str)
    (best : num) (candidate : str) : num * str :=
  match sorted_czech with
  | [] => (best, candidate)
  | c_word :: rest =>
    (* skip impossible improvements *)
    if num_gtb (Int (Z.abs (len c_word - len r_trans))) best
    then scan r_trans rest best candidate
    else
      let dist := levenshtein r_trans (czech_processing c_word) in
      let '(candidate, best) :=
        if num_ltb (Int dist) best then (c_word, Int dist)
        else (candidate, best) in
      if dist =? 0 then (best, candidate)
      else scan r_trans rest best candidate
  end.

Section Matcher.

Variable lower : char -> str.

(** What [translate_words] yields for one source word. *)
Definition translate_word (sorted_czech : list str) (r_word : str)
    : str * str * num :=
  let r_trans := transliteration lower r_word in
  let '(best, candidate) := scan r_trans sorted_czech Inf [] in
  if num_geb best (Int (Z.max (len r_word) (len candidate)))
  then (* not a real translation. *) (r_word, [], Inf)
  else (r_word, candidate, best).

(** The generator [translate_words], as the list of what it yields.  The
    progress lines written to stderr are left out. *)
Definition translate_words (russian czech : Counter) (n : Z)
    : list (str * str * num) :=
  let sorted_czech := map fst (most_common None czech) in
  map (fun '(r_word, _) => translate_word sorted_czech r_word)
      (most_common (Some n) russian).

(** The score of every triple that is not the sentinel is the minimum of
    the distances to the normalised words of the target vocabulary. *)
Definition emits_minimum (russian czech : Counter) (n : Z) : Prop :=
  Forall (fun '(w, candidate, score) =>
            score <> Inf ->
            let dist c := levenshtein (transliteration lower w) (czech_processing c) in
            (exists c, c ∈ map fst czech /\ score = Int (dist c)) /\
            forall c, c ∈ map fst czech -> num_geb (Int (dist c)) score = true)
         (translate_words russian czech n).

End Matcher.

(** Lowercasing on Basic Latin and on the Cyrillic letters U+0400 to
    U+042F, where [str.lower] adds 32 (Latin, U+0410 to U+042F) or 80
    (U+0400 to U+040F); every other character is left as it is.  It is the
    instance of [lower] used in the examples. *)
Definition lower_basic (c : char) : str :=
  if ((0x41 <=? c) && (c <=? 0x5A))%N then [c + 32]%N
  else if ((0x410 <=? c) && (c <=? 0x42F))%N then [c + 32]%N
  else if ((0x400 <=? c) && (c <=? 0x40F))%N then [c + 80]%N
  else [c].

(** ** The memoised distance

    [levenshtein] is wrapped in [functools.lru_cache(maxsize=8192)]: the
    calls of one process share a bounded table from argument pairs to
    results, kept in order of last use.  The state is threaded explicitly. *)

Module LRU.

(** The entries of the cache, most recently used first. *)
Definition cache := list ((str * str) * Z).

Definition M (A : Type) : Type := cache -> A * cache.

Global Instance M_ret : MRet M := fun A x c => (x, c).
Global Instance M_bind : MBind M :=
  fun A B f m c => let '(x, c') := m c in f x c'.

Fixpoint cache_get (key : str * str) (c : cache) : option Z :=
  match c with
  | [] => None
  | (k, v) :: c' => if decide (k = key) then Some v else cache_get key c'
  end.

Fixpoint cache_remove (key : str * str) (c : cache) : cache :=
  match c with
  | [] => []
  | (k, v) :: c' => if decide (k = key) then c' else (k, v) :: cache_remove key c'
  end.

(** The wrapper that [lru_cache(maxsize)] puts around a call with arguments
    [key] whose body is [user_function]: a hit moves the entry to the front
    and returns its result; a miss runs the body and then stores the result,
    in place of the least recently used entry when the cache is full. *)
Definition lru_cache (maxsize : Z) (key : str * str) (user_function : M Z) : M Z :=
  fun c =>
    match cache_get key c with
    | Some result => (result, (key, result) :: cache_remove key c)
    | None =>
      let '(result, c) := user_function c in
      match cache_get key c with
      | Some _ => (result, c)
      | None =>
        if Z.of_nat (length c) >=? maxsize
        then (result, (key, result) :: removelast c)
        else (result, (key, result) :: c)
      end
    end.

End LRU.
Import LRU.

(** [levenshtein] as it runs: every call, also the recursive ones, goes
    through the cache. *)
Fixpoint levenshtein_cached (source : str) : str -> M Z :=
  fix lev_target (target : str) : M Z :=
    lru_cache 8192 (source, target)
      match source, target with
      | [], _ | _, [] => mret (len source + len target)
      | s0 :: source', t0 :: target' =>
        if (s0 =? t0)%N then levenshtein_cached source' target'
        else
          insert ← (d ← lev_target target'; mret (d + 1));
          delete ← (d ← levenshtein_cached source' target; mret (d + 1));
          substitute ← (d ← levenshtein_cached source' target';
                        mret (d + substitution_cost s0 t0));
          mret (Z.min (Z.min insert delete) substitute)
      end.

Fixpoint scan_cached (r_trans : str) (sorted_czech : list str)
    (best : num) (candidate : str) : M (num * str) :=
  match sorted_czech with
  | [] => mret (best, candidate)
  | c_word :: rest =>
    if num_gtb (Int (Z.abs (len c_word - len r_trans))) best
    then scan_cached r_trans rest best candidate
    else
      dist ← levenshtein_cached r_trans (czech_processing c_word);
      let '(candidate, best) :=
        if num_ltb (Int dist) best then (c_word, Int dist)
        else (candidate, best) in
      if dist =? 0 then mret (best, candidate)
      else scan_cached r_trans rest best candidate
  end.

Section MatcherCached.

Variable lower : char -> str.

Definition translate_word_cached (sorted_czech : list str) (r_word : str)
    : M (str * str * num) :=
  let r_trans := transliteration lower r_word in
  '(best, candidate) ← scan_cached r_trans sorted_czech Inf [];
  if num_geb best (Int (Z.max (len r_word) (len candidate)))
  then mret (r_word, [], Inf)
  else mret (r_word, candidate, best).

(** The [for r_word, _ in russian.most_common(n)] loop, collecting what is
    yielded. *)
Fixpoint translate_each (sorted_czech : list str) (words : list (str * Z))
    : M (list (str * str * num)) :=
  match words with
  | [] => mret []
  | (r_word, _) :: words' =>
    y ← translate_word_cached sorted_czech r_word;
    ys ← translate_each sorted_czech words';
    mret (y :: ys)
  end.

Definition translate_words_cached (russian czech : Counter) (n : Z)
    : M (list (str * str * num)) :=
  let sorted_czech := map fst (most_common None czech) in
  translate_each sorted_czech (most_common (Some n) russian).

End MatcherCached.

(** A cache is sound when every entry holds the distance of its key: the
    empty cache is, and so is every cache the program reaches from it. *)
Definition cache_ok (c : cache) : Prop :=
  Forall (fun e => e.2 = levenshtein e.1.1 e.1.2) c.

(** [m] returns [v] from every sound cache, and keeps the cache sound. *)
Definition returns {A} (m : M A) (v : A) : Prop :=
  forall c, cache_ok c -> (m c).1 = v /\ cache_ok (m c).2.

(** The cache holds at most [maxsize] entries. *)
Definition bounded (maxsize : Z) (c : cache) : Prop :=
  Z.of_nat (length c) <= maxsize.

(** [m] preserves the property [I] of the cache. *)
Definition keeps {A} (I : cache -> Prop) (m : M A) : Prop :=
  forall c, I c -> I (m c).2.

(** ** Edit scripts

    The operations that [levenshtein] chooses from, as a relation:
    [edit_script a b n] when [a] is turned into [b] by insertions and
    deletions at cost 1 each and by substitutions, where a character is kept
    at no cost and is changed at its [substitution_cost]. *)

Definition edit_cost (x y : char) : Z :=
  if (x =? y)%N then 0 else substitution_cost x y.

Inductive edit_script : str -> str -> Z -> Prop :=
  | edit_done : edit_script [] [] 0
  | edit_insert y s t n :
      edit_script s t n -> edit_script s (y :: t) (n + 1)
  | edit_delete x s t n :
      edit_script s t n -> edit_script (x :: s) t (n + 1)
  | edit_substitute x y s t n :
      edit_script s t n -> edit_script (x :: s) (y :: t) (n + edit_cost x y).

(** ** project.py: the suffix trie

    A node of the trie holds the links to its children, keyed by a letter,
    and a table that counts genders.  The objects are updated in place in
    Python; here [record] returns the updated node.  The properties that
    divide counts ([probabilities], [most_diverse_class], [guess],
    [best_guess], [evaluate]) work on floats and are left out. *)

Module Project.

#[warnings="-register-all"]
Inductive Trie :=
  Node (links : list (char * Trie)) (genders : Counter) (is_root : bool).

Definition links (t : Trie) : list (char * Trie) :=
  match t with Node links _ _ => links end.
Definition genders (t : Trie) : Counter :=
  match t with Node _ genders _ => genders end.
Definition is_root (t : Trie) : bool :=
  match t with Node _ _ is_root => is_root end.

(** [Trie(is_root)] *)
Definition new (is_root : bool) : Trie := Node [] [] is_root.

(** [sum(counter.values())] *)
Definition sum_values (c : Counter) : Z := foldr (fun kv acc => kv.2 + acc) 0 c.

(** The property [total]. *)
Definition total (t : Trie) : Z := sum_values (genders t).

(** [self.links[a]] followed by a method call that updates the child: the
    [defaultdict] makes a child [Trie(is_root=False)], at the end of its
    keys, when there is none for [a]. *)
Fixpoint links_apply (a : char) (f : Trie -> Trie) (links : list (char * Trie))
    : list (char * Trie) :=
  match links with
  | [] => [(a, f (new false))]
  | (b, child) :: links' =>
    if decide (b = a) then (b, f child) :: links'
    else (b, child) :: links_apply a f links'
  end.

(** [record], on the letters of the word from the last one to the first:
    [word[-1]] is the head of [letters] and [word[:-1]] is its tail. *)
Fixpoint record_letters (letters : list char) (gender : str) (self : Trie) : Trie :=
  match self with
  | Node links genders is_root =>
    let genders := counter_incr gender genders in
    match letters with
    | [] => Node links genders is_root
    | last :: letters' =>
      Node (links_apply last (record_letters letters' gender) links) genders is_root
    end
  end.

Definition record (word gender : str) (self : Trie) : Trie :=
  record_letters (rev word) gender self.

(** [from_tsv_file], on the rows (word, gender) that it reads from the
    file. *)
Fixpoint from_rows_loop (types : bool) (rows : list (str * str))
    (root : Trie) (seen : gset str) : Trie :=
  match rows with
  | [] => root
  | (word, gender) :: rows' =>
    if negb types || negb (bool_decide (word ∈ seen)) then
      from_rows_loop types rows' (record word gender root)
                     (if types then {[word]} ∪ seen else seen)
    else from_rows_loop types rows' root seen
  end.

Definition from_rows (rows : list (str * str)) (types : bool) : Trie :=
  from_rows_loop types rows (new true) ∅.

(** The child that a lookup of [a] in the links finds, or a fresh node. *)
Fixpoint links_get (a : char) (links : list (char * Trie)) : Trie :=
  match links with
  | [] => new false
  | (b, child) :: links' => if decide (b = a) then child else links_get a links'
  end.

(** The node that stands for the words with a given ending: the links are
    followed from the last letter of the ending to its first. *)
Fixpoint descend (letters : list char) (t : Trie) : Trie :=
  match letters with
  | [] => t
  | a :: letters' => descend letters' (links_get a (links t))
  end.

Definition node_of_suffix (suffix : str) (t : Trie) : Trie := descend (rev suffix) t.

(** [word.endswith(suffix)] *)
Definition endswith (word suffix : str) : bool := startswith (rev word) (rev suffix).

End Project.

(** * Properties *)

(** ** The distance engine *)

Section Distance.

Implicit Types (a b s t w : str) (x y : char).

Lemma len_nil : len [] = 0.
Proof. reflexivity. Qed.

Lemma len_cons x s : len (x :: s) = len s + 1.
Proof. unfold len. rewrite length_cons. lia. Qed.

Lemma len_nonneg s : 0 <= len s.
Proof. unfold len. lia. Qed.

Lemma len_app s t : len (s ++ t) = len s + len t.
Proof. unfold len. rewrite length_app. lia. Qed.

Lemma levenshtein_nil_l t : levenshtein [] t = len t.
Proof. destruct t; reflexivity. Qed.

Lemma levenshtein_nil_r s : levenshtein s [] = len s.
Proof. destruct s; [reflexivity | cbn [levenshtein]; rewrite len_nil; lia]. Qed.

Lemma levenshtein_cons x s y t :
  levenshtein (x :: s) (y :: t) =
    if (x =? y)%N then levenshtein s t
    else Z.min (Z.min (levenshtein (x :: s) t + 1) (levenshtein s (y :: t) + 1))
               (levenshtein s t + substitution_cost x y).
Proof. reflexivity. Qed.

Lemma substitution_cost_range x y :
  substitution_cost x y = 0 \/ substitution_cost x y = 1.
Proof. unfold substitution_cost. case_bool_decide; auto. Qed.

(** Induction following the recursion of [levenshtein]: a call on
    [(x :: s, y :: t)] may use the three calls below it. *)
Lemma levenshtein_ind (P : str -> str -> Prop) :
  (forall t, P [] t) ->
  (forall s, P s []) ->
  (forall x s y t, P s t -> P (x :: s) t -> P s (y :: t) -> P (x :: s) (y :: t)) ->
  forall s t, P s t.
Proof.
  intros Hl Hr Hc. induction s as [|x s IHs]; [done|].
  induction t as [|y t IHt]; [done|]. apply Hc; auto.
Qed.

(** The classic example: with no free substitution on the way, the
    distance is the plain edit distance. *)
Example levenshtein_kitten_sitting :
  levenshtein (u "kitten") (u "sitting") = 3.
Proof. reflexivity. Qed.

End Distance.

Global Opaque levenshtein.

(** Every step of the recursion changes the difference of the lengths by at
    most what it costs: a substitution, free or not, keeps the difference,
    an insertion or a deletion changes it by one and costs one. *)
Lemma levenshtein_length_gap (s t : str) :
  Z.abs (len s - len t) <= levenshtein s t.
Proof.
  revert s t. apply levenshtein_ind.
  - intros t. rewrite levenshtein_nil_l, len_nil. pose proof (len_nonneg t). lia.
  - intros s. rewrite levenshtein_nil_r, len_nil. pose proof (len_nonneg s). lia.
  - intros x s y t IHd IHi IHr. rewrite levenshtein_cons.
    rewrite !len_cons in *.
    destruct (substitution_cost_range x y); destruct (x =? y)%N; lia.
Qed.

(** C5: the distance is at least the difference of the lengths, whatever the
    substitution costs: the pruning bound is a lower bound on the distance. *)
Theorem levenshtein_length_lower_bound (a b : str) :
  levenshtein a b >= Z.abs (len a - len b).
Proof. apply Z.le_ge, levenshtein_length_gap. Qed.

(** C6: the distance is at most the sum of the lengths. *)
Theorem levenshtein_length_upper_bound (a b : str) :
  levenshtein a b <= len a + len b.
Proof.
  revert a b. apply levenshtein_ind.
  - intros t. rewrite levenshtein_nil_l, len_nil. lia.
  - intros s. rewrite levenshtein_nil_r, len_nil. lia.
  - intros x s y t IHd IHi IHr. rewrite levenshtein_cons.
    rewrite !len_cons in *.
    destruct (substitution_cost_range x y); destruct (x =? y)%N; lia.
Qed.

(** C7: when one of the two strings is empty, the distance is the length of
    the other one. *)
Theorem levenshtein_empty (a b other : str) :
  (a = [] /\ other = b) \/ (b = [] /\ other = a) ->
  levenshtein a b = len other.
Proof.
  intros [[-> ->] | [-> ->]].
  - apply levenshtein_nil_l.
  - apply levenshtein_nil_r.
Qed.

Lemma levenshtein_empty_witness :
  levenshtein [] (u "pes") = 3 /\ levenshtein (u "дом") [] = 3.
Proof.
  split.
  - apply (levenshtein_empty [] (u "pes") (u "pes")). left. split; reflexivity.
  - apply (levenshtein_empty (u "дом") [] (u "дом")). right. split; reflexivity.
Defined.

(** C8: the distance from a string to itself is 0. *)
Theorem levenshtein_refl (w : str) : levenshtein w w = 0.
Proof.
  induction w as [|x w IH].
  - apply levenshtein_nil_l.
  - rewrite levenshtein_cons, N.eqb_refl. exact IH.
Qed.

(** C4: the substitution cost is looked up for the ordered pair (source
    character, target character) and the table is not symmetric, so neither
    is the distance: g to h is free, h to g costs 1. *)
Theorem levenshtein_not_symmetric :
  substitution_cost (chr "g") (chr "h") = 0 /\
  substitution_cost (chr "h") (chr "g") = 1 /\
  levenshtein (u "g") (u "h") = 0 /\
  levenshtein (u "h") (u "g") = 1 /\
  exists a b : str, levenshtein a b <> levenshtein b a.
Proof.
  repeat split; try (vm_compute; reflexivity).
  exists (u "g"), (u "h"). vm_compute. discriminate.
Qed.

(** ** The cache is transparent

    Every entry of a cache that the program can reach holds the distance of
    its key.  From such a cache a memoised call returns what the body
    computes and leaves such a cache. *)

Section CacheSoundness.

Lemma cache_ok_nil : cache_ok [].
Proof. constructor. Qed.

Lemma cache_get_ok key c v :
  cache_ok c -> cache_get key c = Some v -> v = levenshtein key.1 key.2.
Proof.
  induction 1 as [|[k v'] c Hk Hc IH]; cbn; [done|].
  case_decide; [|done]. intros [= <-]. by subst key.
Qed.

Lemma cache_remove_ok key c : cache_ok c -> cache_ok (cache_remove key c).
Proof.
  induction 1 as [|[k v'] c Hk Hc IH]; cbn; [constructor|].
  case_decide; [done | by constructor].
Qed.

Lemma removelast_ok c : cache_ok c -> cache_ok (removelast c).
Proof.
  induction 1 as [|e c He Hc IH]; cbn; [constructor|].
  destruct c; [constructor | by constructor].
Qed.

Lemma returns_ret {A} (v : A) : returns (mret v) v.
Proof. intros c Hc. by split. Qed.

Lemma returns_bind {A B} (m : M A) (f : A -> M B) v w :
  returns m v -> returns (f v) w -> returns (m ≫= f) w.
Proof.
  intros Hm Hf c Hc. unfold mbind, M_bind.
  destruct (Hm c Hc) as [Hv Hc']. destruct (m c) as [v' c']. cbn in *. subst v'.
  exact (Hf c' Hc').
Qed.

(** Walks through a chain of binds whose calls are covered by hypotheses. *)
Ltac returns_steps :=
  first
    [ eassumption
    | apply returns_ret
    | eapply returns_bind; [returns_steps | cbv beta; returns_steps] ].

Lemma returns_lru_cache maxsize s t (user_function : M Z) :
  returns user_function (levenshtein s t) ->
  returns (lru_cache maxsize (s, t) user_function) (levenshtein s t).
Proof.
  intros Hf c Hc. unfold lru_cache.
  destruct (cache_get (s, t) c) as [v|] eqn:Hget.
  - pose proof (cache_get_ok _ _ _ Hc Hget) as ->. cbn. split; [done|].
    constructor; [done | by apply cache_remove_ok].
  - destruct (Hf c Hc) as [Hv Hc']. destruct (user_function c) as [v c']. cbn in *.
    subst v. destruct (cache_get (s, t) c'); [done|].
    destruct (Z.of_nat (length c') >=? maxsize); cbn; (split; [done|]);
      constructor; try done; by apply removelast_ok.
Qed.

Lemma levenshtein_cached_nil_l t :
  levenshtein_cached [] t = lru_cache 8192 ([], t) (mret (len [] + len t)).
Proof. by destruct t. Qed.

Lemma levenshtein_cached_nil_r s :
  levenshtein_cached s [] = lru_cache 8192 (s, []) (mret (len s + len [])).
Proof. by destruct s. Qed.

Lemma levenshtein_cached_cons x s y t :
  levenshtein_cached (x :: s) (y :: t) =
    lru_cache 8192 (x :: s, y :: t)
      (if (x =? y)%N then levenshtein_cached s t
       else
         insert ← (d ← levenshtein_cached (x :: s) t; mret (d + 1));
         delete ← (d ← levenshtein_cached s (y :: t); mret (d + 1));
         substitute ← (d ← levenshtein_cached s t;
                       mret (d + substitution_cost x y));
         mret (Z.min (Z.min insert delete) substitute)).
Proof. reflexivity. Qed.

(** The memoised function computes [levenshtein]. *)
Lemma levenshtein_cached_returns s t :
  returns (levenshtein_cached s t) (levenshtein s t).
Proof.
  revert s t. apply levenshtein_ind.
  - intros t. rewrite levenshtein_cached_nil_l. apply returns_lru_cache.
    rewrite levenshtein_nil_l, len_nil. apply returns_ret.
  - intros s. rewrite levenshtein_cached_nil_r. apply returns_lru_cache.
    rewrite levenshtein_nil_r, len_nil, Z.add_0_r. apply returns_ret.
  - intros x s y t IHd IHi IHr. rewrite levenshtein_cached_cons.
    apply returns_lru_cache. rewrite levenshtein_cons.
    destruct (x =? y)%N; [done|].
    returns_steps.
Qed.

Lemma scan_cached_returns r_trans sorted_czech best candidate :
  returns (scan_cached r_trans sorted_czech best candidate)
          (scan r_trans sorted_czech best candidate).
Proof.
  revert best candidate.
  induction sorted_czech as [|c_word rest IH]; intros best candidate;
    cbn [scan scan_cached].
  - apply returns_ret.
  - destruct (num_gtb _ best); [apply IH|].
    eapply returns_bind; [apply levenshtein_cached_returns|]. cbv beta.
    destruct (num_ltb _ best), (_ =? 0); first [apply returns_ret | apply IH].
Qed.

Lemma translate_word_cached_returns lower sorted_czech r_word :
  returns (translate_word_cached lower sorted_czech r_word)
          (translate_word lower sorted_czech r_word).
Proof.
  unfold translate_word_cached, translate_word.
  eapply returns_bind; [apply scan_cached_returns|].
  destruct (scan _ _ _ _) as [best candidate].
  destruct (num_geb _ _); apply returns_ret.
Qed.

Lemma translate_each_returns lower sorted_czech words :
  returns (translate_each lower sorted_czech words)
          (map (fun '(r_word, _) => translate_word lower sorted_czech r_word) words).
Proof.
  induction words as [|[r_word count] words IH]; cbn.
  - apply returns_ret.
  - eapply returns_bind; [apply translate_word_cached_returns|].
    eapply returns_bind; [apply IH|]. apply returns_ret.
Qed.

(** The matcher run against the cache yields what the matcher over the
    plain distance yields. *)
Lemma translate_words_cached_returns lower russian czech n :
  returns (translate_words_cached lower russian czech n)
          (translate_words lower russian czech n).
Proof. apply translate_each_returns. Qed.

(** The cache never outgrows [maxsize]: a full cache gives up its least
    recently used entry for the new one. *)
Lemma keeps_ret {A} I (v : A) : keeps I (mret v).
Proof. by intros c Hc. Qed.

Lemma keeps_bind {A B} I (m : M A) (f : A -> M B) :
  keeps I m -> (forall v, keeps I (f v)) -> keeps I (m ≫= f).
Proof.
  intros Hm Hf c Hc. unfold mbind, M_bind.
  specialize (Hm c Hc). destruct (m c) as [v c']. by apply Hf.
Qed.

Lemma cache_remove_length key c v :
  cache_get key c = Some v -> S (length (cache_remove key c)) = length c.
Proof.
  induction c as [|[k v'] c IH]; cbn; [done|].
  case_decide; [done|]. intros ?%IH. cbn. lia.
Qed.

Lemma keeps_lru_cache maxsize key (user_function : M Z) :
  0 < maxsize ->
  keeps (bounded maxsize) user_function ->
  keeps (bounded maxsize) (lru_cache maxsize key user_function).
Proof.
  intros Hmax Hf c Hc. unfold lru_cache, bounded in *.
  destruct (cache_get key c) as [v|] eqn:Hget; cbn.
  - apply cache_remove_length in Hget. lia.
  - specialize (Hf c Hc). destruct (user_function c) as [v c']. cbn in Hf.
    destruct (cache_get key c'); [done|].
    destruct (Z.geb_spec (Z.of_nat (length c')) maxsize); cbn; [|lia].
    destruct c' as [|e c'] using rev_ind; [cbn in *; lia|].
    rewrite removelast_last, length_app in *. cbn in *. lia.
Qed.

Lemma levenshtein_cached_bounded s t :
  keeps (bounded 8192) (levenshtein_cached s t).
Proof.
  revert s t. apply levenshtein_ind.
  - intros t. rewrite levenshtein_cached_nil_l.
    apply keeps_lru_cache; [done | apply keeps_ret].
  - intros s. rewrite levenshtein_cached_nil_r.
    apply keeps_lru_cache; [done | apply keeps_ret].
  - intros x s y t IHd IHi IHr. rewrite levenshtein_cached_cons.
    apply keeps_lru_cache; [done|]. destruct (x =? y)%N; [done|].
    repeat first [ assumption | apply keeps_ret
                 | apply keeps_bind; [|intros ?] ].
Qed.

(** A full cache of size 2: the entry used last is dropped on a miss, and a
    hit moves its entry to the front. *)
Example lru_cache_evicts :
  let k1 := (u "a", u "b") in
  let k2 := (u "c", u "d") in
  let k3 := (u "e", u "f") in
  lru_cache 2 k3 (mret 1) [(k2, 1); (k1, 1)] = (1, [(k3, 1); (k2, 1)]) /\
  lru_cache 2 k1 (mret 1) [(k2, 1); (k1, 1)] = (1, [(k1, 1); (k2, 1)]).
Proof. split; reflexivity. Qed.

End CacheSoundness.

(** C9: [translate_words] is deterministic.  The frequency tables fix the
    order of the words (ties keep the insertion order of the table), and the
    only state that outlives a run is the cache of [levenshtein]: the second
    of two runs, which starts from the cache the first one left, yields the
    same triples in the same order, and so does a run from any other sound
    cache. *)
Theorem translate_words_deterministic
    (lower : char -> str) (russian czech : Counter) (n : Z) (c : cache) :
  cache_ok c ->
  let run := translate_words_cached lower russian czech n in
  (run (run c).2).1 = (run c).1 /\
  forall c', cache_ok c' -> (run c').1 = (run c).1.
Proof.
  intros Hc run.
  destruct (translate_words_cached_returns lower russian czech n c Hc) as [E1 Hc1].
  fold run in E1, Hc1. split.
  - destruct (translate_words_cached_returns lower russian czech n _ Hc1) as [E2 _].
    fold run in E2. congruence.
  - intros c' Hc'.
    destruct (translate_words_cached_returns lower russian czech n c' Hc') as [E2 _].
    fold run in E2. congruence.
Qed.

Lemma translate_words_deterministic_witness :
  let run := translate_words_cached lower_basic
               [(u "дом", 3); (u "гора", 2)] [(u "pes", 2); (u "hora", 1)] 5000 in
  (run (run []).2).1 = (run []).1 /\
  forall c', cache_ok c' -> (run c').1 = (run []).1.
Proof.
  apply (translate_words_deterministic lower_basic
           [(u "дом", 3); (u "гора", 2)] [(u "pes", 2); (u "hora", 1)] 5000 []).
  apply cache_ok_nil.
Defined.

(** ** Frequency tables *)

Section MostCommon.

Implicit Types (x y : str * Z) (l : list (str * Z)).

Lemma insert_desc_perm x l : insert_desc x l ≡ₚ x :: l.
Proof.
  induction l as [|y l IH]; cbn [insert_desc]; [done|].
  destruct (x.2 <? y.2); [|done]. rewrite IH. apply Permutation_swap.
Qed.

(** Ordering a table neither loses nor invents an entry. *)
Lemma sorted_desc_perm l : sorted_desc l ≡ₚ l.
Proof.
  induction l as [|x l IH]; [done|].
  cbn. fold (sorted_desc l). by rewrite insert_desc_perm, IH.
Qed.

Lemma insert_desc_sorted x l :
  StronglySorted (fun a b => b.2 <= a.2) l ->
  StronglySorted (fun a b => b.2 <= a.2) (insert_desc x l).
Proof.
  induction 1 as [|y l Hl IH Hy]; cbn [insert_desc].
  - repeat constructor.
  - destruct (Z.ltb_spec x.2 y.2).
    + constructor; [done|]. rewrite insert_desc_perm. constructor; [lia | done].
    + constructor; [by constructor|].
      constructor; [lia|]. eapply Forall_impl; [exact Hy|]. cbn. lia.
Qed.

(** [most_common] lists the entries by descending count. *)
Lemma sorted_desc_sorted l :
  StronglySorted (fun a b => b.2 <= a.2) (sorted_desc l).
Proof.
  induction l as [|x l IH]; [constructor|].
  cbn. fold (sorted_desc l). by apply insert_desc_sorted.
Qed.

(** The words of the scanned vocabulary are those of the table. *)
Lemma most_common_words (czech : Counter) (c : str) :
  c ∈ map fst (most_common None czech) <-> c ∈ map fst czech.
Proof.
  unfold most_common. change map with (@fmap list _).
  by rewrite sorted_desc_perm.
Qed.

(** Entries with equal counts stay in the order of the table. *)
Example most_common_ties :
  map fst (most_common (Some 3)
             [(u "a", 1); (u "b", 2); (u "c", 1); (u "d", 2); (u "e", 3)])
  = [u "e"; u "b"; u "d"].
Proof. reflexivity. Qed.

End MostCommon.

(** ** The matcher *)

Section Scan.

Implicit Types (best : num) (candidate r_trans c : str) (sorted_czech : list str).

(** Comparisons on [num], as propositions over [Z]. *)
Ltac num_cases :=
  unfold num_geb, num_gtb, num_ltb in *;
  repeat match goal with
         | b : num |- _ => destruct b
         | H : (_, _) = (_, _) |- _ => injection H as ? ?
         end;
  subst; rewrite ?negb_true_iff, ?negb_false_iff, ?Z.ltb_lt, ?Z.ltb_ge in *;
  try done; try lia.

Lemma num_geb_Int best z :
  num_geb best (Int z) = true <-> best = Inf \/ exists b, best = Int b /\ b >= z.
Proof.
  destruct best as [b|]; unfold num_geb, num_ltb.
  - rewrite negb_true_iff, Z.ltb_ge. split.
    + intros. right. exists b. split; [done | lia].
    + intros [? | (? & [= <-] & ?)]; [done | lia].
  - split; auto.
Qed.

(** The loop leaves its variables as they were, or holds a word of the
    vocabulary together with its distance. *)
Lemma scan_result r_trans sorted_czech best candidate best' candidate' :
  scan r_trans sorted_czech best candidate = (best', candidate') ->
  (best' = best /\ candidate' = candidate) \/
  (candidate' ∈ sorted_czech /\
   best' = Int (levenshtein r_trans (czech_processing candidate'))).
Proof.
  revert best candidate.
  induction sorted_czech as [|c_word rest IH]; intros best candidate; cbn [scan].
  - intros [= <- <-]. by left.
  - destruct (num_gtb _ best).
    { intros H. destruct (IH _ _ H) as [?|[? ?]]; [by left|].
      right. split; [by apply list_elem_of_further | done]. }
    destruct (num_ltb _ best) eqn:Hlt.
    + destruct (_ =? 0).
      { intros [= <- <-]. right. split; [apply list_elem_of_here | done]. }
      intros H. destruct (IH _ _ H) as [[-> ->]|[? ?]]; right;
        (split; [|done]); [apply list_elem_of_here | by apply list_elem_of_further].
    + destruct (_ =? 0).
      { intros [= <- <-]. by left. }
      intros H. destruct (IH _ _ H) as [?|[? ?]]; [by left|].
      right. split; [by apply list_elem_of_further | done].
Qed.

(** Were the pruning bound taken on the strings that are compared, the loop
    would find the minimum: when normalisation keeps the length of every
    word of the vocabulary, no word has a distance below the result. *)
Lemma scan_minimum r_trans sorted_czech best candidate best' candidate' :
  (forall c, c ∈ sorted_czech -> len (czech_processing c) = len c) ->
  scan r_trans sorted_czech best candidate = (best', candidate') ->
  num_geb best best' = true /\
  forall c, c ∈ sorted_czech ->
    num_geb (Int (levenshtein r_trans (czech_processing c))) best' = true.
Proof.
  revert best candidate.
  induction sorted_czech as [|c_word rest IH]; intros best candidate Hlen;
    cbn [scan].
  - intros [= <- <-]. split; [num_cases | by intros c ?%elem_of_nil].
  - assert (Hrest : forall c, c ∈ rest -> len (czech_processing c) = len c)
      by (intros; apply Hlen; by apply list_elem_of_further).
    pose proof (levenshtein_length_gap r_trans (czech_processing c_word)) as Hlow.
    rewrite (Hlen c_word) in Hlow by apply list_elem_of_here.
    destruct (num_gtb _ best) eqn:Hskip.
    { intros H. destruct (IH _ _ Hrest H) as [Hb Hall]. split; [done|].
      intros c [->|?]%elem_of_cons; [|by apply Hall]. num_cases. }
    destruct (num_ltb _ best) eqn:Hlt; destruct (_ =? 0) eqn:Hz.
    + intros [= <- <-]. apply Z.eqb_eq in Hz. split; [num_cases|].
      intros c _. rewrite Hz.
      pose proof (levenshtein_length_gap r_trans (czech_processing c)).
      num_cases.
    + intros H. destruct (IH _ _ Hrest H) as [Hb Hall]. split; [num_cases|].
      intros c [->|?]%elem_of_cons; [done | by apply Hall].
    + intros [= <- <-]. apply Z.eqb_eq in Hz. split; [num_cases|].
      rewrite Hz in Hlt. intros c _.
      pose proof (levenshtein_length_gap r_trans (czech_processing c)).
      num_cases.
    + intros H. destruct (IH _ _ Hrest H) as [Hb Hall]. split; [done|].
      intros c [->|?]%elem_of_cons; [num_cases | by apply Hall].
Qed.

(** A binding found in a dict literal is one of the listed bindings. *)
Lemma dict_lookup kvs (k v : str) : dict kvs !! k = Some v -> (k, v) ∈ kvs.
Proof.
  unfold dict.
  assert (forall m : gmap str str,
           foldl (fun m kv => <[kv.1 := kv.2]> m) m kvs !! k = Some v ->
           m !! k = Some v \/ (k, v) ∈ kvs) as Hacc.
  { induction kvs as [|[k' v'] kvs IH]; intros m; cbn [foldl]; [by left|].
    intros [Hm|?]%IH; [|right; by apply list_elem_of_further].
    cbn in Hm. rewrite lookup_insert in Hm. case_decide.
    - injection Hm as <-. subst k'. right. apply list_elem_of_here.
    - by left. }
  intros [Hm|?]%Hacc; [by rewrite lookup_empty in Hm | done].
Qed.

(** No letter is transliterated to nothing. *)
Lemma tr_nonempty (k v : str) : tr !! k = Some v -> 1 <= len v.
Proof.
  intros Hin%dict_lookup.
  repeat (apply elem_of_cons in Hin as [[= _ ->]|Hin]; [by vm_compute|]).
  by apply elem_of_nil in Hin.
Qed.

(** Transliteration never shortens a word. *)
Lemma transliteration_len lower (w : str) : len w <= len (transliteration lower w).
Proof.
  induction w as [|x w IH]; [done|].
  cbn [transliteration flat_map]. fold (transliteration lower w).
  rewrite len_app, len_cons.
  assert (1 <= len (default [x] (tr !! lower x))); [|lia].
  destruct (tr !! lower x) eqn:Hx; cbn [default]; [by eapply tr_nonempty | done].
Qed.

Lemma czech_processing_nil : czech_processing [] = [].
Proof. reflexivity. Qed.

End Scan.

(** C2: the rejection rule.  For every source word, in the order of the
    table, the triple that is yielded is the sentinel when the best distance
    is at least the larger of the lengths of the raw source word and of the
    raw best candidate, and is the candidate with its distance otherwise.
    The boundary is inclusive: a word of length 3 whose best candidate has
    length 3 at distance 3 yields the sentinel. *)
Theorem translate_words_rejection
    (lower : char -> str) (russian czech : Counter) (n : Z) :
  let sorted_czech := map fst (most_common None czech) in
  Forall2 (fun '(w, _) '(w', candidate, score) =>
             let '(best, bestCandidate) :=
               scan (transliteration lower w) sorted_czech Inf [] in
             w' = w /\
             if num_geb best (Int (Z.max (len w) (len bestCandidate)))
             then candidate = [] /\ score = Inf
             else candidate = bestCandidate /\ score = best)
          (most_common (Some n) russian)
          (translate_words lower russian czech n) /\
  forall w count bestCandidate,
    (w, count) ∈ most_common (Some n) russian ->
    len w = 3 -> len bestCandidate = 3 ->
    scan (transliteration lower w) sorted_czech Inf [] = (Int 3, bestCandidate) ->
    (w, [], Inf) ∈ translate_words lower russian czech n.
Proof.
  intros sorted_czech. unfold translate_words. fold sorted_czech.
  generalize (most_common (Some n) russian) as words. intros words. split.
  - induction words as [|[w count] words IH]; cbn [map]; constructor; [|done].
    unfold translate_word.
    destruct (scan _ _ _ _) as [best bestCandidate].
    by destruct (num_geb _ _).
  - intros w count bestCandidate Hin Hw Hc Hscan.
    apply list_elem_of_fmap. exists (w, count). split; [|done].
    unfold translate_word. by rewrite Hscan, Hw, Hc.
Qed.

Lemma translate_words_rejection_witness :
  (u "дом", [], Inf) ∈
    translate_words lower_basic [(u "дом", 3)] [(u "pes", 2)] 5000.
Proof.
  apply (translate_words_rejection lower_basic [(u "дом", 3)] [(u "pes", 2)] 5000)
    with (count := 3) (bestCandidate := u "pes").
  - apply list_elem_of_here.
  - reflexivity.
  - reflexivity.
  - vm_compute. reflexivity.
Defined.

(** C3: in every triple that is yielded the candidate is empty exactly when
    the score is the sentinel; with an empty target vocabulary every source
    word yields the sentinel. *)
Theorem translate_words_sentinel
    (lower : char -> str) (russian czech : Counter) (n : Z) :
  Forall (fun '(w, candidate, score) => candidate = [] <-> score = Inf)
         (translate_words lower russian czech n) /\
  Forall2 (fun '(w, _) y => y = (w, [], Inf))
          (most_common (Some n) russian)
          (translate_words lower russian [] n).
Proof.
  unfold translate_words.
  generalize (most_common (Some n) russian) as words. intros words. split.
  - generalize (map fst (most_common None czech)) as sorted_czech.
    intros sorted_czech. apply Forall_forall.
    intros [[w candidate] score] ([r_word count] & Hy & _)%list_elem_of_fmap.
    unfold translate_word in Hy.
    destruct (scan _ _ _ _) as [best bestCandidate] eqn:Hscan.
    destruct (num_geb _ _) eqn:Hrej; injection Hy as -> -> ->; [done|].
    apply scan_result in Hscan as [[-> ->]|[_ ->]]; [done|].
    split; [|done]. intros ->.
    rewrite czech_processing_nil, levenshtein_nil_r, len_nil in Hrej.
    pose proof (transliteration_len lower r_word).
    unfold num_geb, num_ltb in Hrej.
    apply negb_false_iff, Z.ltb_lt in Hrej.
    pose proof (len_nonneg (transliteration lower r_word)). exfalso. lia.
  - induction words as [|[w count] words IH]; cbn [map]; by constructor.
Qed.

(** With a bound that is sound for the compared strings, every score is
    the minimum over the vocabulary. *)
Lemma translate_words_minimum_when_length_kept
    (lower : char -> str) (russian czech : Counter) (n : Z) :
  (forall c, c ∈ map fst czech -> len (czech_processing c) = len c) ->
  emits_minimum lower russian czech n.
Proof.
  intros Hlen. unfold emits_minimum, translate_words. apply Forall_forall.
  intros [[w candidate] score] ([r_word count] & Hy & _)%list_elem_of_fmap.
  unfold translate_word in Hy.
  destruct (scan _ _ _ _) as [best bestCandidate] eqn:Hscan.
  destruct (num_geb _ _); injection Hy as -> -> ->; [done|]. intros Hfin.
  assert (forall c, c ∈ map fst (most_common None czech) ->
                    len (czech_processing c) = len c) as Hlen'
    by (intros c Hc; apply Hlen; by apply most_common_words).
  destruct (scan_minimum _ _ _ _ _ _ Hlen' Hscan) as [_ Hmin].
  apply scan_result in Hscan as [[-> _]|[Hin ->]]; [done|]. split.
  - exists bestCandidate. by rewrite <- most_common_words.
  - intros c ?%most_common_words. by apply Hmin.
Qed.

(** C1, at the input where it fails.  The vocabulary is scanned in the order
    x, chch.  After x the best distance is 1; chch is then skipped, because
    its raw length differs by 2 from the length of the transliterated source
    word, although its normalised form xx is at distance 0.  The score that
    is yielded, 1, is not the minimum over the vocabulary. *)
Theorem translate_words_pruning_misses_minimum :
  let russian := [(u "хх", 1)] in
  let czech := [(u "x", 2); (u "chch", 1)] in
  let r_trans := transliteration lower_basic (u "хх") in
  map fst (most_common None czech) = [u "x"; u "chch"] /\
  translate_words lower_basic russian czech 5000 = [(u "хх", u "x", Int 1)] /\
  num_gtb (Int (Z.abs (len (u "chch") - len r_trans))) (Int 1) = true /\
  levenshtein r_trans (czech_processing (u "chch")) = 0 /\
  ~ emits_minimum lower_basic russian czech 5000.
Proof.
  repeat split; try by vm_compute.
  unfold emits_minimum.
  replace (translate_words _ _ _ _) with [(u "хх", u "x", Int 1)] by by vm_compute.
  intros [Hmin _]%Forall_cons. destruct Hmin as [_ Hmin]; [done|].
  specialize (Hmin (u "chch")).
  vm_compute in Hmin. discriminate Hmin.
  change (u "chch" ∈ [u "x"; u "chch"]). apply list_elem_of_further, list_elem_of_here.
Qed.

(** ** The target-language normaliser *)

Section Replace.

Implicit Types (old new s : str) (x p q : char).

Lemma no_pair_contains p q s : no_pair p q s = true -> ~ contains [p; q] s.
Proof.
  intros Hs (l1 & l2 & ->). induction l1 as [|a l1 IH]; cbn in Hs.
  - rewrite N.eqb_refl, bool_decide_eq_true_2 in Hs; done.
  - apply andb_true_iff in Hs as [_ Hs]. auto.
Qed.

Lemma no_pair_app p q s t :
  no_pair p q s = true -> no_pair p q t = true ->
  (last s = Some p -> head t = Some q -> False) ->
  no_pair p q (s ++ t) = true.
Proof.
  intros Hs Ht Hst. induction s as [|a s IH]; [done|].
  cbn [app no_pair] in *. apply andb_true_iff in Hs as [Ha Hs].
  apply andb_true_iff. split.
  - destruct s as [|b s]; [|done]. cbn [app] in *.
    apply negb_true_iff, andb_false_iff.
    destruct (N.eqb_spec a p) as [->|]; [right | by left].
    apply bool_decide_eq_false_2. intros ?. by apply Hst.
  - apply IH; [done|]. intros Hl. apply Hst.
    destruct s; [done | by rewrite last_cons, Hl].
Qed.

(** Replacing one character. *)
Lemma replace_char_cons x new a s :
  replace [x] new (a :: s) =
    if (x =? a)%N then new ++ replace [x] new s else a :: replace [x] new s.
Proof.
  unfold replace. cbn [replace_from startswith length Nat.pred].
  by destruct (x =? a)%N.
Qed.

(** A replacement brings in no character besides those of [new]. *)
Lemma replace_from_elem old new skip s x :
  x ∈ replace_from old new skip s -> x ∈ s \/ x ∈ new.
Proof.
  revert skip. induction s as [|a s IH]; intros skip; cbn [replace_from].
  - by left.
  - destruct skip as [|k].
    + destruct (startswith _ _).
      * intros [?|[?|?]%IH]%elem_of_app; auto using list_elem_of_further.
      * intros [->|[?|?]%IH]%elem_of_cons;
          auto using list_elem_of_further, list_elem_of_here.
    + intros [?|?]%IH; auto using list_elem_of_further.
Qed.

Lemma replace_keeps_absent old new s x :
  old <> [] -> x ∉ s -> x ∉ new -> x ∉ replace old new s.
Proof.
  intros Hold Hs Hnew Hin. destruct old; [done|].
  apply replace_from_elem in Hin as [?|?]; done.
Qed.

(** The replaced character is gone, unless [new] brings it back. *)
Lemma replace_char_absent x new s : x ∉ new -> x ∉ replace [x] new s.
Proof.
  intros Hnew. induction s as [|a s IH]; [by apply not_elem_of_nil|].
  rewrite replace_char_cons. destruct (N.eqb_spec x a) as [<-|Hne].
  - rewrite elem_of_app. tauto.
  - rewrite elem_of_cons. tauto.
Qed.

(** The first character after a replacement is the one before it, or the
    first character of [new]. *)
Lemma replace_from_head old new s q :
  new <> [] -> head new <> Some q ->
  head (replace_from old new 0 s) = Some q -> head s = Some q.
Proof.
  intros Hne Hq. destruct s as [|a s]; [done|]. cbn [replace_from].
  destruct (startswith _ _); [|done]. by destruct new.
Qed.

(** Replacing the pair [p; q] leaves no such pair. *)
Lemma replace_pair_no_pair p q new s :
  new <> [] -> head new <> Some q -> last new <> Some p ->
  no_pair p q new = true ->
  no_pair p q (replace [p; q] new s) = true.
Proof.
  intros Hne Hhead Hlast Hnew. unfold replace.
  assert (forall skip, (skip <= 1)%nat ->
            no_pair p q (replace_from [p; q] new skip s) = true) as Hskip;
    [|by apply Hskip; lia].
  induction s as [|a s IH]; intros skip Hle; [done|]. cbn [replace_from].
  destruct skip as [|k]; [|apply IH; lia].
  destruct (startswith _ _) eqn:Hsw.
  - apply no_pair_app; [done | apply IH; cbn; lia | done].
  - cbn [no_pair]. apply andb_true_iff. split; [|apply IH; lia].
    apply negb_true_iff, andb_false_iff.
    destruct (N.eqb_spec a p) as [->|]; [right | by left].
    apply bool_decide_eq_false_2. intros Hh%replace_from_head; [|done..].
    destruct s as [|b s]; [done|]. injection Hh as ->.
    cbn [startswith] in Hsw. by rewrite !N.eqb_refl in Hsw.
Qed.

(** Replacing a character keeps a string free of the pair [p; q], when
    [new] cannot form the pair with its neighbours. *)
Lemma replace_char_no_pair p q x new s :
  new <> [] -> head new <> Some q -> last new <> Some p ->
  no_pair p q new = true ->
  no_pair p q s = true -> no_pair p q (replace [x] new s) = true.
Proof.
  intros Hne Hhead Hlast Hnew. induction s as [|a s IH]; [done|].
  intros [Ha Hs]%andb_true_iff. rewrite replace_char_cons.
  destruct (x =? a)%N.
  - apply no_pair_app; auto.
  - cbn [no_pair]. apply andb_true_iff. split; [|auto].
    apply negb_true_iff, andb_false_iff.
    apply negb_true_iff, andb_false_iff in Ha as [Ha|Ha]; [by left | right].
    apply bool_decide_eq_false_2. intros Hh%replace_from_head; [|done..].
    by rewrite Hh, bool_decide_eq_true_2 in Ha.
Qed.

End Replace.

(** Evaluates the string literals of the goal. *)
Ltac eval_literals :=
  repeat match goal with
         | |- context [u ?lit] =>
           let v := eval vm_compute in (u lit) in change (u lit) with v
         end.

(** Goes down the chain of replacements to the one that removes the
    character. *)
Ltac absent_in_chain :=
  first
    [ apply replace_char_absent; compute_done
    | apply replace_keeps_absent; [done | absent_in_chain | compute_done] ].

(** C10: the normalised word contains neither the digraph ch nor any of the
    accented letters that the chain replaces. *)
Theorem czech_processing_clean (word : str) :
  ~ contains (u "ch") (czech_processing word) /\
  Forall (fun x => x ∉ czech_processing word) (u "áíóúéýůňčďěřť").
Proof.
  split.
  - apply (no_pair_contains (chr "c") (chr "h")).
    unfold czech_processing. eval_literals.
    repeat (apply replace_char_no_pair; [by vm_compute..|]).
    apply replace_pair_no_pair; by vm_compute.
  - unfold czech_processing. eval_literals.
    repeat (constructor; [absent_in_chain|]). constructor.
Qed.

(** * Further properties *)

(** ** The distance as an optimum *)

Section DistanceSteps.

Implicit Types (a b s t : str) (x y z : char).

Lemma levenshtein_nonneg s t : 0 <= levenshtein s t.
Proof. pose proof (levenshtein_length_gap s t). lia. Qed.

(** One more character on either side moves the distance by at most one.
    The four bounds depend on each other at shorter strings, so they are
    proved together, by induction on the total length. *)
Lemma levenshtein_step s t :
  (forall x, levenshtein (x :: s) t <= levenshtein s t + 1 /\
             levenshtein s t <= levenshtein (x :: s) t + 1) /\
  (forall y, levenshtein s (y :: t) <= levenshtein s t + 1 /\
             levenshtein s t <= levenshtein s (y :: t) + 1).
Proof.
  assert (forall n s t, (length s + length t < n)%nat ->
    (forall x, levenshtein (x :: s) t <= levenshtein s t + 1 /\
               levenshtein s t <= levenshtein (x :: s) t + 1) /\
    (forall y, levenshtein s (y :: t) <= levenshtein s t + 1 /\
               levenshtein s t <= levenshtein s (y :: t) + 1)) as Hn;
    [|by apply (Hn (S (length s + length t))); lia].
  clear s t. induction n as [|n IH]; intros s t Hlen; [lia|]. split.
  - intros x. destruct t as [|y t].
    + rewrite !levenshtein_nil_r, len_cons. lia.
    + destruct (IH s t) as [Hx Hy]; [cbn in *; lia|].
      specialize (Hx x). specialize (Hy y).
      rewrite (levenshtein_cons x s y t).
      destruct (substitution_cost_range x y); destruct (x =? y)%N; lia.
  - intros y. destruct s as [|x s].
    + rewrite !levenshtein_nil_l, len_cons. lia.
    + destruct (IH s t) as [Hx Hy]; [cbn in *; lia|].
      specialize (Hx x). specialize (Hy y).
      rewrite (levenshtein_cons x s y t).
      destruct (substitution_cost_range x y); destruct (x =? y)%N; lia.
Qed.

Lemma edit_cost_range x y : edit_cost x y = 0 \/ edit_cost x y = 1.
Proof.
  unfold edit_cost. destruct (x =? y)%N; [by left|].
  apply substitution_cost_range.
Qed.

(** The recursion of [levenshtein] with the shortcut for equal leading
    characters taken out: the shortcut is one of three branches, at cost 0. *)
Lemma levenshtein_unfold x s y t :
  levenshtein (x :: s) (y :: t) =
    Z.min (Z.min (levenshtein (x :: s) t + 1) (levenshtein s (y :: t) + 1))
          (levenshtein s t + edit_cost x y).
Proof.
  rewrite levenshtein_cons. unfold edit_cost.
  destruct (N.eqb_spec x y) as [->|]; [|done].
  destruct (levenshtein_step s t) as [Hx Hy].
  specialize (Hx y). specialize (Hy y). lia.
Qed.

End DistanceSteps.

Section Scripts.

Implicit Types (a b c s t : str) (x y z : char) (n m k : Z).

Lemma edit_script_cast a b n m : edit_script a b n -> n = m -> edit_script a b m.
Proof. by intros H <-. Qed.

Lemma edit_script_nonneg a b n : edit_script a b n -> 0 <= n.
Proof.
  induction 1 as [|y s t n _ IH|x s t n _ IH|x y s t n _ IH]; try lia.
  destruct (edit_cost_range x y); lia.
Qed.

Lemma edit_script_insert_all t : edit_script [] t (len t).
Proof.
  induction t as [|y t IH]; [constructor|].
  rewrite len_cons. by constructor.
Qed.

Lemma edit_script_delete_all s : edit_script s [] (len s).
Proof.
  induction s as [|x s IH]; [constructor|].
  rewrite len_cons. by constructor.
Qed.

(** The distance is the cost of a script. *)
Lemma levenshtein_script a b : edit_script a b (levenshtein a b).
Proof.
  revert a b. apply levenshtein_ind.
  - intros t. rewrite levenshtein_nil_l. apply edit_script_insert_all.
  - intros s. rewrite levenshtein_nil_r. apply edit_script_delete_all.
  - intros x s y t Hd Hi Hr. rewrite levenshtein_unfold.
    apply (edit_insert y), (edit_script_cast _ _ _ (levenshtein (x :: s) t + 1)) in Hi; [|done].
    apply (edit_delete x), (edit_script_cast _ _ _ (levenshtein s (y :: t) + 1)) in Hr; [|done].
    apply (edit_substitute x y) in Hd.
    destruct (Z.min_spec (levenshtein (x :: s) t + 1) (levenshtein s (y :: t) + 1))
      as [[_ ->]|[_ ->]];
    match goal with
    | |- edit_script _ _ (Z.min ?u ?v) =>
      destruct (Z.min_spec u v) as [[_ ->]|[_ ->]]
    end; done.
Qed.

(** No script is cheaper than the distance. *)
Lemma levenshtein_le_script a b n : edit_script a b n -> levenshtein a b <= n.
Proof.
  induction 1 as [|y s t n _ IH|x s t n _ IH|x y s t n _ IH].
  - by rewrite levenshtein_nil_l.
  - destruct (levenshtein_step s t) as [_ Hy]. specialize (Hy y). lia.
  - destruct (levenshtein_step s t) as [Hx _]. specialize (Hx x). lia.
  - rewrite levenshtein_unfold. lia.
Qed.

(** Scripts on two pairs of strings run one after the other. *)
Lemma edit_script_app a b n a' b' m :
  edit_script a b n -> edit_script a' b' m ->
  edit_script (a ++ a') (b ++ b') (n + m).
Proof.
  intros Hab Hab'. induction Hab as [|y s t n _ IH|x s t n _ IH|x y s t n _ IH]; cbn [app].
  - by eapply edit_script_cast.
  - eapply edit_script_cast; [by apply (edit_insert y)|lia].
  - eapply edit_script_cast; [by apply (edit_delete x)|lia].
  - eapply edit_script_cast; [by apply (edit_substitute x y)|lia].
Qed.

(** Changing x to z is never dearer than changing it to y and then to z. *)
Lemma edit_cost_triangle x y z : edit_cost x z <= edit_cost x y + edit_cost y z.
Proof.
  unfold edit_cost, substitution_cost.
  change (chr "i") with 105%N. change (chr "y") with 121%N.
  change (chr "g") with 103%N. change (chr "h") with 104%N.
  destruct (N.eqb_spec x z) as [->|Hxz].
  { destruct (z =? y)%N, (y =? z)%N; repeat case_bool_decide; lia. }
  destruct (N.eqb_spec x y) as [->|Hxy].
  { by rewrite (proj2 (N.eqb_neq y z) Hxz). }
  destruct (N.eqb_spec y z) as [->|Hyz]; [lia|].
  repeat case_bool_decide; try lia.
  repeat match goal with
         | H : _ ∈ _ :: _ |- _ => apply elem_of_cons in H as [H|H]
         | H : _ ∈ [] |- _ => by apply elem_of_nil in H
         end; simplify_eq.
Qed.

(** A script from [a] to [b] and one from [b] to [c] merge into one from
    [a] to [c] that costs no more than the two together. *)
Lemma edit_script_trans a b n :
  edit_script a b n ->
  forall c m, edit_script b c m -> exists k, edit_script a c k /\ k <= n + m.
Proof.
  induction 1 as [|y s t n Hst IH|x s t n Hst IH|x y s t n Hst IH]; intros c m Hbc.
  - exists m. split; [done | lia].
  - remember (y :: t) as b eqn:Hb.
    induction Hbc as [|z b c m Hbc IHbc|x' b c m Hbc _|x' z b c m Hbc _].
    + done.
    + destruct (IHbc Hb) as (k & Hk & Hle).
      exists (k + 1). split; [by constructor | lia].
    + injection Hb as -> ->. destruct (IH _ _ Hbc) as (k & Hk & Hle).
      exists k. split; [done | lia].
    + injection Hb as -> ->. destruct (IH _ _ Hbc) as (k & Hk & Hle).
      exists (k + 1). split; [by constructor|].
      destruct (edit_cost_range y z); lia.
  - destruct (IH _ _ Hbc) as (k & Hk & Hle).
    exists (k + 1). split; [by constructor | lia].
  - remember (y :: t) as b eqn:Hb.
    induction Hbc as [|z b c m Hbc IHbc|x' b c m Hbc _|x' z b c m Hbc _].
    + done.
    + destruct (IHbc Hb) as (k & Hk & Hle).
      exists (k + 1). split; [by constructor | lia].
    + injection Hb as -> ->. destruct (IH _ _ Hbc) as (k & Hk & Hle).
      exists (k + 1). split; [by apply edit_delete|].
      destruct (edit_cost_range x y); lia.
    + injection Hb as -> ->. destruct (IH _ _ Hbc) as (k & Hk & Hle).
      exists (k + edit_cost x z). split; [by constructor|].
      pose proof (edit_cost_triangle x y z). lia.
Qed.

End Scripts.

Section DistanceOptimum.

Implicit Types (a b c p s t : str) (x y z : char) (n m k : Z).

Lemma edit_script_rev a b n :
  edit_script a b n -> edit_script (rev a) (rev b) n.
Proof.
  induction 1 as [|y s t n _ IH|x s t n _ IH|x y s t n _ IH]; cbn [rev].
  - constructor.
  - rewrite <- (app_nil_r (rev s)).
    apply edit_script_app; [done|]. apply (edit_insert y [] [] 0). constructor.
  - rewrite <- (app_nil_r (rev t)).
    apply edit_script_app; [done|]. apply (edit_delete x [] [] 0). constructor.
  - apply edit_script_app; [done|].
    eapply edit_script_cast; [apply (edit_substitute x y [] [] 0); constructor | lia].
Qed.

Lemma levenshtein_rev_le a b : levenshtein (rev a) (rev b) <= levenshtein a b.
Proof. apply levenshtein_le_script, edit_script_rev, levenshtein_script. Qed.

Lemma levenshtein_rev_eq a b : levenshtein (rev a) (rev b) = levenshtein a b.
Proof.
  pose proof (levenshtein_rev_le a b).
  pose proof (levenshtein_rev_le (rev a) (rev b)) as H'.
  rewrite !rev_involutive in H'. lia.
Qed.

Lemma levenshtein_prefix p a b : levenshtein (p ++ a) (p ++ b) = levenshtein a b.
Proof.
  induction p as [|x p IH]; [done|].
  cbn [app]. by rewrite levenshtein_cons, N.eqb_refl.
Qed.

End DistanceOptimum.

(** X1: [levenshtein a b] is the minimum cost of turning [a] into [b] by
    insertions, deletions and substitutions under the cost table: some edit
    script has this cost and none is cheaper.  Dropping equal leading
    characters first, as the code does, loses nothing. *)
Theorem levenshtein_optimal (a b : str) :
  edit_script a b (levenshtein a b) /\
  forall n, edit_script a b n -> levenshtein a b <= n.
Proof.
  split; [apply levenshtein_script | apply levenshtein_le_script].
Qed.

(** X2: the triangle inequality.  Going through a third word is never
    cheaper, although the cost table is not symmetric. *)
Theorem levenshtein_triangle (a b c : str) :
  levenshtein a c <= levenshtein a b + levenshtein b c.
Proof.
  destruct (edit_script_trans a b _ (levenshtein_script a b)
              c _ (levenshtein_script b c)) as (k & Hk & Hle).
  apply levenshtein_le_script in Hk. lia.
Qed.

(** X3: the distance of two concatenations is at most the sum of the
    distances of the parts. *)
Theorem levenshtein_app (a b a' b' : str) :
  levenshtein (a ++ a') (b ++ b') <= levenshtein a b + levenshtein a' b'.
Proof.
  apply levenshtein_le_script, edit_script_app; apply levenshtein_script.
Qed.

(** X4: one more character at the front of either word changes the distance
    by at most one. *)
Theorem levenshtein_one_char (x : char) (s t : str) :
  Z.abs (levenshtein (x :: s) t - levenshtein s t) <= 1 /\
  Z.abs (levenshtein s (x :: t) - levenshtein s t) <= 1.
Proof.
  destruct (levenshtein_step s t) as [Hx Hy].
  specialize (Hx x). specialize (Hy x). lia.
Qed.

(** X5: a common prefix and a common suffix of the two words are free. *)
Theorem levenshtein_common_affix (p a b : str) :
  levenshtein (p ++ a) (p ++ b) = levenshtein a b /\
  levenshtein (a ++ p) (b ++ p) = levenshtein a b.
Proof.
  split; [apply levenshtein_prefix|].
  rewrite <- (levenshtein_rev_eq (a ++ p)), !rev_app_distr.
  by rewrite levenshtein_prefix, levenshtein_rev_eq.
Qed.

(** X6: the distance is 0, which is what ends the scan of the vocabulary
    early, exactly when the words have the same length and at every position
    the characters are equal or form one of the free pairs of
    [substitution_cost]. *)
Theorem levenshtein_zero (a b : str) :
  levenshtein a b = 0 <->
  Forall2 (fun x y => x = y \/ substitution_cost x y = 0) a b.
Proof.
  split.
  - revert b. induction a as [|x s IH]; intros [|y t] H0.
    + constructor.
    + rewrite levenshtein_nil_l, len_cons in H0. pose proof (len_nonneg t). lia.
    + rewrite levenshtein_nil_r, len_cons in H0. pose proof (len_nonneg s). lia.
    + rewrite levenshtein_unfold in H0.
      pose proof (levenshtein_nonneg (x :: s) t).
      pose proof (levenshtein_nonneg s (y :: t)).
      pose proof (levenshtein_nonneg s t).
      destruct (edit_cost_range x y) as [Hc|Hc]; [|lia].
      constructor; [|apply IH; lia].
      unfold edit_cost in Hc. destruct (N.eqb_spec x y); auto.
  - induction 1 as [|x y s t Hxy _ IH]; [by rewrite levenshtein_nil_l|].
    pose proof (levenshtein_nonneg (x :: s) (y :: t)).
    rewrite levenshtein_unfold in *.
    assert (edit_cost x y = 0); [|lia].
    unfold edit_cost. destruct Hxy as [->|?]; [by rewrite N.eqb_refl|].
    by destruct (x =? y)%N.
Qed.

(** X7: reading both words backwards does not change the distance. *)
Theorem levenshtein_rev (a b : str) :
  levenshtein (rev a) (rev b) = levenshtein a b.
Proof. apply levenshtein_rev_eq. Qed.

(** ** The memoised distance, seen by its callers *)

Section CacheUse.

Implicit Types (s t : str) (c : cache).

(** Whatever happens, the key of the call is in the cache afterwards. *)
Lemma lru_cache_stored maxsize key (user_function : M Z) c :
  is_Some (cache_get key (lru_cache maxsize key user_function c).2).
Proof.
  unfold lru_cache. destruct (cache_get key c) as [v|] eqn:Hget.
  - cbn. by rewrite decide_True.
  - destruct (user_function c) as [v c']. destruct (cache_get key c') eqn:Hget'.
    + cbn. by rewrite Hget'.
    + destruct (_ >=? _); cbn; by rewrite decide_True.
Qed.

Lemma levenshtein_cached_stored s t c :
  is_Some (cache_get (s, t) (levenshtein_cached s t c).2).
Proof.
  destruct s as [|x s]; [rewrite levenshtein_cached_nil_l|destruct t as [|y t]];
    [|rewrite levenshtein_cached_nil_r|rewrite levenshtein_cached_cons];
    apply lru_cache_stored.
Qed.

End CacheUse.

(** X8: memoisation is invisible.  From a cache whose entries are right (the
    empty cache, or any cache reached from it, entries evicted or not) the
    call returns the distance, leaves a cache whose entries are right, and
    leaves its own result stored for the next call. *)
Theorem levenshtein_cached_transparent (s t : str) (c : cache) :
  cache_ok c ->
  (levenshtein_cached s t c).1 = levenshtein s t /\
  cache_ok (levenshtein_cached s t c).2 /\
  cache_get (s, t) (levenshtein_cached s t c).2 = Some (levenshtein s t).
Proof.
  intros Hc. destruct (levenshtein_cached_returns s t c Hc) as [Hv Hc'].
  repeat split; [done..|].
  destruct (levenshtein_cached_stored s t c) as [v Hget].
  by rewrite Hget, (cache_get_ok _ _ _ Hc' Hget).
Qed.

Lemma levenshtein_cached_transparent_witness :
  (levenshtein_cached (u "гора") (u "hora") []).1 = levenshtein (u "гора") (u "hora") /\
  cache_ok (levenshtein_cached (u "гора") (u "hora") []).2 /\
  cache_get (u "гора", u "hora") (levenshtein_cached (u "гора") (u "hora") []).2
    = Some (levenshtein (u "гора") (u "hora")).
Proof.
  apply (levenshtein_cached_transparent (u "гора") (u "hora") []).
  apply cache_ok_nil.
Defined.

(** X9: the cache of [levenshtein] never holds more than 8192 entries. *)
Theorem levenshtein_cached_size (s t : str) (c : cache) :
  Z.of_nat (length c) <= 8192 ->
  Z.of_nat (length (levenshtein_cached s t c).2) <= 8192.
Proof. apply levenshtein_cached_bounded. Qed.

Lemma levenshtein_cached_size_witness :
  Z.of_nat (length (levenshtein_cached (u "дом") (u "pes") []).2) <= 8192 /\
  (0 < length (levenshtein_cached (u "дом") (u "pes") []).2)%nat.
Proof.
  split.
  - apply (levenshtein_cached_size (u "дом") (u "pes") []). cbn. lia.
  - vm_compute. lia.
Defined.

(** ** What the matcher yields *)

(** Turns comparisons on [num] into comparisons on [Z]. *)
Ltac num_solve :=
  unfold num_geb, num_gtb, num_ltb in *;
  repeat match goal with
         | b : num |- _ => destruct b
         | H : Int _ = Int _ |- _ => injection H as H
         end;
  subst; rewrite ?negb_true_iff, ?negb_false_iff, ?Z.ltb_lt, ?Z.ltb_ge in *;
  try done; try lia.

Section ScanOrder.

Implicit Types (best : num) (candidate r_trans c : str) (sorted_czech : list str).

(** The loop never skips a word for which the length bound is right: such a
    word has no distance below the result. *)
Lemma scan_bound_sound r_trans sorted_czech best candidate best' candidate' :
  scan r_trans sorted_czech best candidate = (best', candidate') ->
  num_geb best best' = true /\
  forall c, c ∈ sorted_czech ->
    Z.abs (len c - len r_trans) <= levenshtein r_trans (czech_processing c) ->
    num_geb (Int (levenshtein r_trans (czech_processing c))) best' = true.
Proof.
  revert best candidate.
  induction sorted_czech as [|c_word rest IH]; intros best candidate; cbn [scan].
  - intros [= <- <-]. split; [num_solve | by intros c ?%elem_of_nil].
  - destruct (num_gtb _ best) eqn:Hskip.
    { intros H. destruct (IH _ _ H) as [Hb Hall]. split; [done|].
      intros c [->|?]%elem_of_cons ?; [|by apply Hall]. num_solve. }
    destruct (num_ltb _ best) eqn:Hlt; destruct (_ =? 0) eqn:Hz.
    + intros [= <- <-]. apply Z.eqb_eq in Hz. split; [num_solve|].
      intros c _ _. rewrite Hz.
      pose proof (levenshtein_nonneg r_trans (czech_processing c)). num_solve.
    + intros H. destruct (IH _ _ H) as [Hb Hall]. split; [num_solve|].
      intros c [->|?]%elem_of_cons ?; [done | by apply Hall].
    + intros [= <- <-]. apply Z.eqb_eq in Hz. split; [num_solve|].
      rewrite Hz in Hlt. intros c _ _.
      pose proof (levenshtein_nonneg r_trans (czech_processing c)). num_solve.
    + intros H. destruct (IH _ _ H) as [Hb Hall]. split; [done|].
      intros c [->|?]%elem_of_cons ?; [num_solve | by apply Hall].
Qed.

(** When the loop replaces its candidate, the new one is the first word of
    the list to reach the final distance, among the words for which the
    length bound is right. *)
Lemma scan_first r_trans sorted_czech best candidate best' candidate' :
  scan r_trans sorted_czech best candidate = (best', candidate') ->
  (best' = best /\ candidate' = candidate) \/
  exists l1 l2,
    sorted_czech = l1 ++ candidate' :: l2 /\
    best' = Int (levenshtein r_trans (czech_processing candidate')) /\
    num_ltb best' best = true /\
    forall c, c ∈ l1 ->
      Z.abs (len c - len r_trans) <= levenshtein r_trans (czech_processing c) ->
      num_ltb best' (Int (levenshtein r_trans (czech_processing c))) = true.
Proof.
  revert best candidate.
  induction sorted_czech as [|c_word rest IH]; intros best candidate; cbn [scan].
  - intros [= <- <-]. by left.
  - destruct (num_gtb _ best) eqn:Hskip.
    { intros [?|(l1 & l2 & -> & -> & Hlt & Hl1)]%IH; [by left|].
      right. exists (c_word :: l1), l2. repeat split; [done..|].
      intros c [->|?]%elem_of_cons ?; [|by apply Hl1]. num_solve. }
    destruct (num_ltb _ best) eqn:Hlt; destruct (_ =? 0) eqn:Hz.
    + intros [= <- <-]. right. exists [], rest. repeat split; [done|].
      by intros c ?%elem_of_nil.
    + intros [[-> ->]|(l1 & l2 & -> & -> & Hlt' & Hl1)]%IH; right.
      * exists [], rest. repeat split; [done|]. by intros c ?%elem_of_nil.
      * exists (c_word :: l1), l2. repeat split; [num_solve|].
        intros c [->|?]%elem_of_cons ?; [done | by apply Hl1].
    + intros [= <- <-]. by left.
    + intros [?|(l1 & l2 & -> & -> & Hlt' & Hl1)]%IH; [by left|].
      right. exists (c_word :: l1), l2. repeat split; [done..|].
      intros c [->|?]%elem_of_cons ?; [num_solve | by apply Hl1].
Qed.

Lemma sorted_desc_length (l : list (str * Z)) : length (sorted_desc l) = length l.
Proof. apply Permutation_length, sorted_desc_perm. Qed.

End ScanOrder.

Lemma translate_words_sources
    (lower : char -> str) (russian czech : Counter) (n : Z) :
  map (fun y => y.1.1) (translate_words lower russian czech n)
    = map fst (most_common (Some n) russian).
Proof.
  unfold translate_words. rewrite map_map. apply map_ext.
  intros [w count]. unfold translate_word.
  destruct (scan _ _ _ _) as [best candidate]. by destruct (num_geb _ _).
Qed.

(** X10: [translate_words] yields one triple for each of the [n] most
    frequent source words, in the order of [most_common]: the first
    components are those words, and there are [n] triples, or as many as the
    table has words when it has fewer (none when [n] is not positive). *)
Theorem translate_words_order
    (lower : char -> str) (russian czech : Counter) (n : Z) :
  map (fun y => y.1.1) (translate_words lower russian czech n)
    = map fst (most_common (Some n) russian) /\
  length (translate_words lower russian czech n)
    = Nat.min (Z.to_nat n) (length russian).
Proof.
  split; [apply translate_words_sources|].
  unfold translate_words. rewrite length_map. unfold most_common.
  by rewrite length_take, sorted_desc_length.
Qed.

(** X11: a triple is the sentinel, or it holds a word of the target table
    together with the distance between the transliterated source word and
    that word normalised, and this distance is below the larger of the two
    raw lengths. *)
Theorem translate_words_candidate
    (lower : char -> str) (russian czech : Counter) (n : Z) :
  Forall (fun '(w, candidate, score) =>
            (candidate = [] /\ score = Inf) \/
            (candidate ∈ map fst czech /\
             score = Int (levenshtein (transliteration lower w)
                                      (czech_processing candidate)) /\
             levenshtein (transliteration lower w) (czech_processing candidate)
               < Z.max (len w) (len candidate)))
         (translate_words lower russian czech n).
Proof.
  unfold translate_words. apply Forall_forall.
  intros [[w candidate] score] ([r_word count] & Hy & _)%list_elem_of_fmap.
  unfold translate_word in Hy.
  destruct (scan _ _ _ _) as [best bestCandidate] eqn:Hscan.
  destruct (num_geb _ _) eqn:Hrej; injection Hy as -> -> ->; [by left|].
  apply scan_result in Hscan as [[-> ->]|[Hin ->]]; [done|]. right.
  split; [by apply most_common_words|]. split; [done|]. num_solve.
Qed.

(** X12: the scan never passes over a better word for which the length bound
    is right.  For a triple that is not the sentinel, every word of the
    target table whose raw length differs from the length of the
    transliterated source word by no more than its distance has a distance
    that is at least the score. *)
Theorem translate_words_bound_sound
    (lower : char -> str) (russian czech : Counter) (n : Z) :
  Forall (fun '(w, candidate, score) =>
            forall c d,
              c ∈ map fst czech ->
              d = levenshtein (transliteration lower w) (czech_processing c) ->
              Z.abs (len c - len (transliteration lower w)) <= d ->
              score = Inf \/ num_geb (Int d) score = true)
         (translate_words lower russian czech n).
Proof.
  unfold translate_words. apply Forall_forall.
  intros [[w candidate] score] ([r_word count] & Hy & _)%list_elem_of_fmap.
  intros c d Hc -> Hgap. unfold translate_word in Hy.
  destruct (scan _ _ _ _) as [best bestCandidate] eqn:Hscan.
  destruct (num_geb _ _); injection Hy as -> -> ->; [by left|]. right.
  apply scan_bound_sound in Hscan as [_ Hall].
  apply Hall; [by apply most_common_words | done].
Qed.

(** X13: ties go to the more frequent word.  The candidate of a triple that
    is not the sentinel stands in the scan order after words that are all
    strictly farther from the source word, as far as the length bound is
    right for them. *)
Theorem translate_words_prefers_frequent
    (lower : char -> str) (russian czech : Counter) (n : Z) :
  Forall (fun '(w, candidate, score) =>
            score = Inf \/
            exists l1 l2,
              map fst (most_common None czech) = l1 ++ candidate :: l2 /\
              forall c d,
                c ∈ l1 ->
                d = levenshtein (transliteration lower w) (czech_processing c) ->
                Z.abs (len c - len (transliteration lower w)) <= d ->
                num_ltb score (Int d) = true)
         (translate_words lower russian czech n).
Proof.
  unfold translate_words. apply Forall_forall.
  intros [[w candidate] score] ([r_word count] & Hy & _)%list_elem_of_fmap.
  unfold translate_word in Hy.
  destruct (scan _ _ _ _) as [best bestCandidate] eqn:Hscan.
  destruct (num_geb _ _) eqn:Hrej; injection Hy as -> -> ->; [by left|].
  apply scan_first in Hscan as [[-> ->]|(l1 & l2 & Hl & -> & _ & Hl1)]; [done|].
  right. exists l1, l2. split; [done|]. intros c d Hc -> Hgap. by apply Hl1.
Qed.

(** X26: in a table that lists no word twice, as a [Counter] does, no
    source word is translated twice. *)
Theorem translate_words_once
    (lower : char -> str) (russian czech : Counter) (n : Z) :
  NoDup (map fst russian) ->
  NoDup (map (fun y => y.1.1) (translate_words lower russian czech n)).
Proof.
  intros Hd. rewrite translate_words_sources.
  unfold most_common. change map with (@fmap list _). rewrite fmap_take.
  eapply sublist_NoDup; [|apply sublist_take].
  by rewrite sorted_desc_perm.
Qed.

Lemma translate_words_once_witness :
  NoDup (map (fun y => y.1.1)
           (translate_words lower_basic
              [(u "дом", 3); (u "гора", 2)] [(u "pes", 2); (u "hora", 1)] 5000)) /\
  translate_words lower_basic
    [(u "дом", 3); (u "гора", 2)] [(u "pes", 2); (u "hora", 1)] 5000
  = [(u "дом", [], Inf); (u "гора", u "hora", Int 0)].
Proof.
  split; [|by vm_compute].
  apply (translate_words_once lower_basic
           [(u "дом", 3); (u "гора", 2)] [(u "pes", 2); (u "hora", 1)] 5000).
  cbn [map fst]. repeat (apply NoDup_cons_2; [compute_done|]). apply NoDup_nil_2.
Defined.

(** X27: the matcher as it runs, with every distance taken through the
    cache, yields what the matcher over the plain distance yields, from any
    cache whose entries are right, and it leaves such a cache. *)
Theorem translate_words_cached_refines
    (lower : char -> str) (russian czech : Counter) (n : Z) (c : cache) :
  cache_ok c ->
  (translate_words_cached lower russian czech n c).1
    = translate_words lower russian czech n /\
  cache_ok (translate_words_cached lower russian czech n c).2.
Proof. apply translate_words_cached_returns. Qed.

Lemma translate_words_cached_refines_witness :
  (translate_words_cached lower_basic
     [(u "дом", 3); (u "гора", 2)] [(u "pes", 2); (u "hora", 1)] 5000 []).1
    = translate_words lower_basic
        [(u "дом", 3); (u "гора", 2)] [(u "pes", 2); (u "hora", 1)] 5000 /\
  cache_ok (translate_words_cached lower_basic
     [(u "дом", 3); (u "гора", 2)] [(u "pes", 2); (u "hora", 1)] 5000 []).2.
Proof.
  apply (translate_words_cached_refines lower_basic
           [(u "дом", 3); (u "гора", 2)] [(u "pes", 2); (u "hora", 1)] 5000 []).
  apply cache_ok_nil.
Defined.

(** ** The normalisers, character by character *)

Section Transliteration.

Variable lower : char -> str.

(** No letter is transliterated to more than two characters. *)
Lemma tr_short (k v : str) : tr !! k = Some v -> len v <= 2.
Proof.
  intros Hin%dict_lookup.
  repeat (apply elem_of_cons in Hin as [[= _ ->]|Hin]; [by vm_compute|]).
  by apply elem_of_nil in Hin.
Qed.

(** No letter is transliterated to something with an ASCII apostrophe. *)
Lemma tr_no_apostrophe (k v : str) : tr !! k = Some v -> chr "'" ∉ v.
Proof.
  intros Hk. pose proof (dict_lookup _ _ _ Hk) as Hin.
  repeat (apply elem_of_cons in Hin as [[= -> ->]|Hin];
          [first [compute_done | by vm_compute in Hk]|]).
  by apply elem_of_nil in Hin.
Qed.

Lemma transliteration_app (a b : str) :
  transliteration lower (a ++ b) = transliteration lower a ++ transliteration lower b.
Proof. apply flat_map_app. Qed.

Lemma transliteration_len_upper (w : str) :
  len (transliteration lower w) <= 2 * len w.
Proof.
  induction w as [|x w IH]; [done|].
  cbn [transliteration flat_map]. fold (transliteration lower w).
  rewrite len_app, len_cons.
  assert (len (default [x] (tr !! lower x)) <= 2); [|lia].
  destruct (tr !! lower x) eqn:Hx; cbn [default]; [by eapply tr_short | done].
Qed.

End Transliteration.

(** X14: [transliteration] works letter by letter.  It distributes over
    concatenation, and every letter gives one or two characters, so the
    result is at least as long as the word and at most twice as long. *)
Theorem transliteration_letterwise (lower : char -> str) (a b : str) :
  transliteration lower (a ++ b)
    = transliteration lower a ++ transliteration lower b /\
  len a <= len (transliteration lower a) <= 2 * len a.
Proof.
  split; [apply transliteration_app|].
  split; [apply transliteration_len | apply transliteration_len_upper].
Qed.

(** X15: the table binds the soft sign twice, first to the ASCII apostrophe
    and then to the modifier letter prime; the second binding is the one in
    force.  So [transliteration] never brings in the ASCII apostrophe, which
    is the mark that [czech_processing] writes after a palatalised letter. *)
Theorem transliteration_no_apostrophe (lower : char -> str) (w : str) :
  chr "'" ∉ w ->
  (chr "'" ∉ transliteration lower w) /\ tr !! u "ь" = Some (u "ʹ").
Proof.
  intros Hw. split; [|by vm_compute].
  induction w as [|x w IH]; [by apply not_elem_of_nil|].
  cbn [transliteration flat_map]. fold (transliteration lower w).
  apply not_elem_of_cons in Hw as [Hx Hw]. rewrite elem_of_app.
  intros [Hin|Hin]; [|by apply IH].
  destruct (tr !! lower x) eqn:Hk; cbn [default] in Hin.
  - by eapply tr_no_apostrophe.
  - by apply list_elem_of_singleton in Hin.
Qed.

Lemma transliteration_no_apostrophe_witness :
  ((chr "'" ∉ transliteration lower_basic (u "конь")) /\
   tr !! u "ь" = Some (u "ʹ")) /\
  transliteration lower_basic (u "конь") = u "konʹ" /\
  czech_processing (u "kůň") = u "kun'".
Proof.
  split; [|by vm_compute].
  apply (transliteration_no_apostrophe lower_basic (u "конь")). compute_done.
Defined.

Section CzechPasses.

Implicit Types (old new s w : str) (x y p q : char).

Lemma replace_char_flat_map x new s :
  replace [x] new s = flat_map (fun c => if (x =? c)%N then new else [c]) s.
Proof.
  induction s as [|a s IH]; [done|].
  rewrite replace_char_cons, IH. cbn [flat_map]. by destruct (x =? a)%N.
Qed.

Lemma replace_char_map x y s :
  replace [x] [y] s = map (fun c => if (x =? c)%N then y else c) s.
Proof.
  induction s as [|a s IH]; [done|].
  rewrite replace_char_cons, IH. cbn [map]. by destruct (x =? a)%N.
Qed.

Lemma flat_map_flat_map {A B C} (f : A -> list B) (g : B -> list C) (l : list A) :
  flat_map g (flat_map f l) = flat_map (fun a => flat_map g (f a)) l.
Proof.
  induction l as [|a l IH]; [done|]. cbn [flat_map]. by rewrite flat_map_app, IH.
Qed.

(** A character that does not occur is not replaced. *)
Lemma replace_char_id x new s : x ∉ s -> replace [x] new s = s.
Proof.
  induction s as [|a s IH]; [done|]. intros [Ha Hs]%not_elem_of_cons.
  rewrite replace_char_cons, IH by done.
  by rewrite (proj2 (N.eqb_neq x a)).
Qed.

(** A pair that does not occur is not replaced. *)
Lemma replace_pair_id p q new s :
  no_pair p q s = true -> replace [p; q] new s = s.
Proof.
  unfold replace. induction s as [|a s IH]; [done|].
  intros [Ha Hs]%andb_true_iff. cbn [replace_from startswith].
  rewrite IH by done. destruct s as [|b s].
  - by rewrite andb_false_r.
  - cbn [startswith]. rewrite andb_true_r.
    apply negb_true_iff in Ha. cbn [head] in Ha.
    destruct (N.eqb_spec p a) as [->|]; [|done].
    rewrite N.eqb_refl in Ha. cbn in Ha.
    apply bool_decide_eq_false in Ha.
    destruct (N.eqb_spec q b) as [->|]; done.
Qed.

Lemma not_contains_no_pair p q s : ~ contains [p; q] s -> no_pair p q s = true.
Proof.
  induction s as [|a s IH]; [done|]. intros Hs. cbn [no_pair].
  apply andb_true_iff. split.
  - apply negb_true_iff, not_true_iff_false.
    intros [->%N.eqb_eq Hq%bool_decide_eq_true]%andb_true_iff.
    destruct s as [|b s]; [done|]. injection Hq as ->.
    apply Hs. by exists [], s.
  - apply IH. intros (l1 & l2 & ->). apply Hs. by exists (a :: l1), l2.
Qed.

(** Replacing a pair by one character: the result is no longer than the
    string and at least half as long. *)
Lemma replace_pair_len p q x s :
  len (replace [p; q] [x] s) <= len s <= 2 * len (replace [p; q] [x] s).
Proof.
  unfold replace.
  assert (forall skip, (skip <= 1)%nat ->
    len (replace_from [p; q] [x] skip s) <= len s /\
    len s <= 2 * len (replace_from [p; q] [x] skip s) + Z.of_nat skip) as Hskip.
  { induction s as [|a s IH]; intros skip Hle; [cbn; rewrite len_nil; lia|].
    cbn [replace_from]. destruct skip as [|k].
    - destruct (startswith _ _); cbn [app length Nat.pred];
        rewrite !len_cons.
      + destruct (IH 1%nat) as [? ?]; lia.
      + destruct (IH 0%nat) as [? ?]; lia.
    - rewrite len_cons. destruct (IH k) as [? ?]; lia. }
  destruct (Hskip 0%nat) as [? ?]; lia.
Qed.

Lemma palatalise_len c : 1 <= len (palatalise c) <= 2.
Proof. unfold palatalise. repeat case_match; by vm_compute. Qed.

Lemma flat_map_palatalise_len s :
  len s <= len (flat_map palatalise s) <= 2 * len s.
Proof.
  induction s as [|a s IH]; [done|]. cbn [flat_map].
  rewrite len_app, len_cons. pose proof (palatalise_len a). lia.
Qed.

End CzechPasses.

(** Evaluates the character literals of the goal. *)
Ltac eval_ords :=
  repeat match goal with
         | |- context [ord ?lit] =>
           let v := eval vm_compute in (ord lit) in change (ord lit) with v
         end.

(** Settles the case where the character [c] is [k] by evaluation, and goes
    on with [c] different from [k]. *)
Ltac split_char c k :=
  destruct (N.eqb_spec c k) as [->|?];
  [ by vm_compute
  | rewrite ?(proj2 (N.eqb_neq k c)) by done;
    cbv beta iota; cbn [flat_map app] ].

Section CzechChain.

Implicit Types (w : str) (c : char).

(** The chain of fourteen replacements is three passes: shorten the long
    vowels letter by letter, replace ch by x, and write out the palatalised
    letters one by one. *)
Lemma czech_processing_as_passes w :
  czech_processing w
    = flat_map palatalise (replace (u "ch") (u "x") (map strip_length w)).
Proof.
  unfold czech_processing. eval_literals.
  rewrite (replace_char_map _ _ w).
  do 6 rewrite (replace_char_map _ _ (map _ w)), map_map.
  rewrite !replace_char_flat_map, !flat_map_flat_map.
  replace (map _ w) with (map strip_length w).
  - apply flat_map_ext. intros c. unfold palatalise. eval_ords. eval_literals.
    split_char c 328%N. split_char c 269%N. split_char c 271%N.
    split_char c 283%N. split_char c 345%N. split_char c 357%N. done.
  - apply map_ext. intros c. unfold strip_length. eval_ords.
    split_char c 225%N. split_char c 237%N. split_char c 243%N.
    split_char c 250%N. split_char c 233%N. split_char c 253%N.
    split_char c 367%N. done.
Qed.

(** The content of the normalised word, in the form used below. *)
Lemma czech_processing_free w :
  no_pair (chr "c") (chr "h") (czech_processing w) = true /\
  Forall (fun x => x ∉ czech_processing w) (u "áíóúéýůňčďěřť").
Proof.
  split.
  - unfold czech_processing. eval_literals.
    repeat (apply replace_char_no_pair; [by vm_compute..|]).
    apply replace_pair_no_pair; by vm_compute.
  - unfold czech_processing. eval_literals.
    repeat (constructor; [absent_in_chain|]). constructor.
Qed.

(** A word without the letters and the pair that the chain replaces is left
    as it is. *)
Lemma czech_processing_fixed w :
  no_pair (chr "c") (chr "h") w = true ->
  Forall (fun x => x ∉ w) (u "áíóúéýůňčďěřť") ->
  czech_processing w = w.
Proof.
  intros Hch Hw. rewrite Forall_forall in Hw.
  unfold czech_processing. eval_literals.
  do 7 rewrite (replace_char_id _ _ w) by (apply Hw; compute_done).
  rewrite (replace_pair_id _ _ _ w) by exact Hch.
  by do 6 rewrite (replace_char_id _ _ w) by (apply Hw; compute_done).
Qed.

End CzechChain.

(** X16: the order of the replacements within the chain of
    [czech_processing] does not matter beyond three passes: the result is
    what one gets by shortening the long vowels letter by letter, then
    replacing every ch by x, then writing out the palatalised letters one by
    one. *)
Theorem czech_processing_passes (w : str) :
  czech_processing w
    = flat_map palatalise (replace (u "ch") (u "x") (map strip_length w)).
Proof. apply czech_processing_as_passes. Qed.

(** X17: normalisation changes the length of a word by a factor of two at
    most, in either direction; this is how far the raw length that the
    pruning test uses can be from the length of the compared string. *)
Theorem czech_processing_length (w : str) :
  len (czech_processing w) <= 2 * len w /\ len w <= 2 * len (czech_processing w).
Proof.
  rewrite czech_processing_as_passes.
  pose proof (flat_map_palatalise_len
                (replace (u "ch") (u "x") (map strip_length w))) as Hp.
  pose proof (replace_pair_len (chr "c") (chr "h") (chr "x") (map strip_length w)) as Hx.
  change [chr "c"; chr "h"] with (u "ch") in Hx. change [chr "x"] with (u "x") in Hx.
  assert (len (map strip_length w) = len w) as Hv
    by (unfold len; by rewrite length_map).
  lia.
Qed.

(** X18: a word that contains neither ch nor any of the thirteen accented
    letters is its own normal form. *)
Theorem czech_processing_plain (w : str) :
  ~ contains (u "ch") w ->
  Forall (fun x => x ∉ w) (u "áíóúéýůňčďěřť") ->
  czech_processing w = w.
Proof.
  intros Hch Hw. apply czech_processing_fixed; [|done].
  by apply not_contains_no_pair.
Qed.

Lemma czech_processing_plain_witness :
  czech_processing (u "hora") = u "hora" /\ czech_processing (u "švejk") = u "švejk".
Proof.
  split.
  - apply (czech_processing_plain (u "hora")).
    + apply (no_pair_contains (chr "c") (chr "h")). reflexivity.
    + compute_done.
  - apply (czech_processing_plain (u "švejk")).
    + apply (no_pair_contains (chr "c") (chr "h")). reflexivity.
    + compute_done.
Defined.

(** X19: [czech_processing] is idempotent: normalising a normalised word
    changes nothing. *)
Theorem czech_processing_idempotent (w : str) :
  czech_processing (czech_processing w) = czech_processing w.
Proof.
  destruct (czech_processing_free w) as [Hch Hw].
  by apply czech_processing_fixed.
Qed.

(** ** Reading the words *)

Section Tokens.

Variables is_word is_digit : char -> bool.


End Tokens.

Section Counting.

Implicit Types (c : Counter) (elem k : str) (ws : list str).

Lemma counter_incr_get elem c k :
  counter_get (counter_incr elem c) k
    = counter_get c k + (if decide (elem = k) then 1 else 0).
Proof.
  induction c as [|[k' v] c IH]; cbn [counter_incr counter_get].
  - repeat case_decide; lia.
  - destruct (decide (k' = elem)) as [->|Hne]; cbn [counter_get].
    + repeat case_decide; congruence || lia.
    + rewrite IH. repeat case_decide; congruence || lia.
Qed.

Lemma counter_incr_keys elem c :
  map fst (counter_incr elem c)
    = map fst c ++ (if decide (elem ∈ map fst c) then [] else [elem]).
Proof.
  induction c as [|[k' v] c IH]; cbn [counter_incr map fst].
  - by rewrite decide_False by apply not_elem_of_nil.
  - destruct (decide (k' = elem)) as [->|Hne]; cbn [map fst].
    + rewrite decide_True by apply list_elem_of_here. by rewrite app_nil_r.
    + rewrite IH. cbn [app]. f_equal. f_equal.
      destruct (decide (elem ∈ map fst c)) as [Hin|Hin].
      * by rewrite decide_True by by apply list_elem_of_further.
      * rewrite decide_False; [done|].
        by intros [->|?]%elem_of_cons.
Qed.

Lemma counter_incr_NoDup elem c :
  NoDup (map fst c) -> NoDup (map fst (counter_incr elem c)).
Proof.
  intros Hc. rewrite counter_incr_keys. case_decide; [by rewrite app_nil_r|].
  apply NoDup_app. split; [done|]. split; [|apply NoDup_singleton].
  intros x Hx ->%list_elem_of_singleton. done.
Qed.

Lemma counter_incr_positive elem c :
  Forall (fun kv => 1 <= kv.2) c -> Forall (fun kv => 1 <= kv.2) (counter_incr elem c).
Proof.
  induction 1 as [|[k' v] c Hv Hc IH]; cbn [counter_incr].
  - by repeat constructor.
  - case_decide; constructor; cbn in *; try done. lia.
Qed.

Lemma update_spec c ws :
  NoDup (map fst c) -> Forall (fun kv => 1 <= kv.2) c ->
  (forall k, counter_get (update c ws) k = counter_get c k + occurrences k ws) /\
  NoDup (map fst (update c ws)) /\
  Forall (fun kv => 1 <= kv.2) (update c ws).
Proof.
  unfold update. revert c. induction ws as [|w ws IH]; intros c Hd Hp; cbn [foldl].
  - split; [|done]. intros k. cbn. lia.
  - destruct (IH (counter_incr w c)) as (Hget & Hd' & Hp');
      [by apply counter_incr_NoDup | by apply counter_incr_positive|].
    split; [|done]. intros k. rewrite Hget, counter_incr_get. cbn [occurrences]. lia.
Qed.

Lemma update_app c ws ws' : update c (ws ++ ws') = update (update c ws) ws'.
Proof. apply foldl_app. Qed.

Lemma update_lines (f : str -> list str) c (lines : list str) :
  foldl (fun words line => update words (f line)) c lines
    = update c (flat_map f lines).
Proof.
  revert c. induction lines as [|line lines IH]; intros c; [done|].
  cbn [foldl flat_map]. by rewrite IH, update_app.
Qed.

Lemma get_words_update is_space is_alpha is_word is_digit str_lower lines gzipped :
  get_words is_space is_alpha is_word is_digit str_lower lines gzipped
    = update [] (words_read is_space is_alpha is_word is_digit str_lower lines gzipped).
Proof.
  unfold get_words, words_read. destruct gzipped; [done|]. apply update_lines.
Qed.

End Counting.


(** X21: in the table that [get_words] returns, the count of a word is the
    number of times it was read, no word is listed twice, and every listed
    count is at least 1. *)
Theorem get_words_counts
    (is_space is_alpha is_word is_digit : char -> bool) (str_lower : str -> str)
    (lines : list str) (gzipped : bool) :
  let words := get_words is_space is_alpha is_word is_digit str_lower lines gzipped in
  let read := words_read is_space is_alpha is_word is_digit str_lower lines gzipped in
  (forall k, counter_get words k = occurrences k read) /\
  NoDup (map fst words) /\
  Forall (fun kv => 1 <= kv.2) words.
Proof.
  intros words read. unfold words. rewrite get_words_update. fold read.
  destruct (update_spec [] read) as (Hget & Hd & Hp); [constructor..|].
  split; [|done]. intros k. by rewrite Hget.
Qed.

(** ** project.py: what the trie counts *)

Module ProjectFacts.
Import Project.

Section Record.

Implicit Types (t : Trie) (a b : char) (letters path : list char) (gender g : str).

Lemma sum_values_incr g (c : Counter) : sum_values (counter_incr g c) = sum_values c + 1.
Proof.
  unfold sum_values. induction c as [|[k v] c IH]; cbn [counter_incr]; [done|].
  case_decide; cbn [foldr snd]; lia.
Qed.

Lemma genders_record_letters letters gender t :
  genders (record_letters letters gender t) = counter_incr gender (genders t).
Proof. by destruct t, letters. Qed.

Lemma is_root_record_letters letters gender t :
  is_root (record_letters letters gender t) = is_root t.
Proof. by destruct t, letters. Qed.

Lemma links_get_apply a b (f : Trie -> Trie) (l : list (char * Trie)) :
  links_get a (links_apply b f l)
    = if decide (b = a) then f (links_get a l) else links_get a l.
Proof.
  induction l as [|[c child] l IH]; cbn [links_apply links_get].
  - by case_decide.
  - destruct (decide (c = b)) as [->|Hcb]; cbn [links_get].
    + by repeat case_decide.
    + rewrite IH. repeat case_decide; congruence.
Qed.

Lemma descend_record_letters path letters gender t :
  descend path (record_letters letters gender t)
    = if startswith letters path
      then record_letters (drop (length path) letters) gender (descend path t)
      else descend path t.
Proof.
  revert letters t. induction path as [|a path IH]; intros letters t; [done|].
  destruct t as [l c r], letters as [|b letters];
    cbn [descend record_letters links startswith]; [done|].
  rewrite links_get_apply. destruct (N.eqb_spec a b) as [->|Hab].
  - rewrite decide_True by done. by rewrite IH.
  - by rewrite decide_False by done.
Qed.

Lemma descend_new path r : genders (descend path (new r)) = [].
Proof.
  revert r. induction path as [|a path IH]; intros r; [done|]. apply IH.
Qed.

Lemma counter_get_record path letters gender g t :
  counter_get (genders (descend path (record_letters letters gender t))) g
    = counter_get (genders (descend path t)) g
      + (if startswith letters path && bool_decide (gender = g) then 1 else 0).
Proof.
  rewrite descend_record_letters. destruct (startswith letters path); cbn [andb].
  - rewrite genders_record_letters, counter_incr_get.
    case_decide; [by rewrite bool_decide_eq_true_2 | by rewrite bool_decide_eq_false_2].
  - lia.
Qed.

Lemma total_record path letters gender t :
  total (descend path (record_letters letters gender t))
    = total (descend path t) + (if startswith letters path then 1 else 0).
Proof.
  unfold total. rewrite descend_record_letters. destruct (startswith letters path).
  - by rewrite genders_record_letters, sum_values_incr.
  - lia.
Qed.

(** Without [types], the loop records every row. *)
Lemma from_rows_loop_all rows root seen path g :
  counter_get (genders (descend path (from_rows_loop false rows root seen))) g
    = counter_get (genders (descend path root)) g
      + Z.of_nat (length (List.filter
          (fun row => startswith (rev row.1) path && bool_decide (row.2 = g)) rows)) /\
  total (descend path (from_rows_loop false rows root seen))
    = total (descend path root)
      + Z.of_nat (length (List.filter (fun row => startswith (rev row.1) path) rows)).
Proof.
  revert root. induction rows as [|[word gender] rows IH]; intros root;
    cbn [from_rows_loop List.filter negb orb fst snd].
  - cbn [length]. split; lia.
  - destruct (IH (record word gender root)) as [-> ->]. unfold record.
    rewrite counter_get_record, total_record.
    split; [destruct (_ && _) | destruct (startswith _ _)]; cbn [length]; lia.
Qed.

(** With [types], the loop records the first row of every word. *)
Lemma from_rows_loop_types (rows : list (str * str)) (root : Trie) (seen : gset str) :
  total (from_rows_loop true rows root seen)
    = total root + Z.of_nat (size (list_to_set (map fst rows) ∖ seen : gset str)).
Proof.
  revert root seen. induction rows as [|[word gender] rows IH]; intros root seen;
    cbn [from_rows_loop map fst list_to_set negb orb].
  - rewrite difference_disjoint_L, size_empty by apply disjoint_empty_l. lia.
  - set (words := list_to_set (map fst rows) : gset str) in *.
    case_bool_decide as Hseen; cbn [negb].
    + rewrite IH. do 3 f_equal. apply set_eq. intros x.
      rewrite !elem_of_difference, elem_of_union, elem_of_singleton.
      destruct (decide (x = word)) as [->|]; tauto.
    + rewrite IH. unfold record.
      pose proof (total_record [] (rev word) gender root) as Ht.
      cbn [descend startswith] in Ht. rewrite Ht.
      assert (({[word]} ∪ words) ∖ seen = {[word]} ∪ (words ∖ ({[word]} ∪ seen))) as ->.
      { apply set_eq. intros x.
        rewrite !elem_of_union, !elem_of_difference, !elem_of_union, !elem_of_singleton.
        destruct (decide (x = word)) as [->|]; tauto. }
      rewrite (size_union (C:=gset str) {[word]} (words ∖ ({[word]} ∪ seen)));
        [rewrite size_singleton; lia|].
      intros x ->%elem_of_singleton [_ Hx]%elem_of_difference.
      apply Hx, elem_of_union_l. by apply elem_of_singleton.
Qed.

End Record.

(** X22: recording a word raises the total of the node by one and the count
    of its gender by one, and leaves every other count and the root flag as
    they were. *)
Theorem record_counts (word gender : str) (t : Trie) :
  total (record word gender t) = total t + 1 /\
  (forall g, counter_get (genders (record word gender t)) g
             = counter_get (genders t) g + (if decide (gender = g) then 1 else 0)) /\
  is_root (record word gender t) = is_root t.
Proof.
  unfold record, total. rewrite genders_record_letters, is_root_record_letters.
  split; [apply sum_values_incr|]. split; [|done].
  intros g. apply counter_incr_get.
Qed.

(** X23: recording a word goes down one link.  The child for the last letter
    of the word is the child as it was with the rest of the word recorded in
    it; the children for the other letters are as they were; and recording
    the empty word changes no link. *)
Theorem record_child (word gender : str) (a : char) (t : Trie) :
  links_get a (links (record (word ++ [a]) gender t))
    = record word gender (links_get a (links t)) /\
  (forall b, b <> a ->
     links_get b (links (record (word ++ [a]) gender t)) = links_get b (links t)) /\
  links (record [] gender t) = links t.
Proof.
  unfold record. rewrite rev_app_distr. cbn [rev app].
  destruct t as [l c r]. cbn [record_letters links]. split; [|split; [|done]].
  - rewrite links_get_apply. by rewrite decide_True.
  - intros b Hb. rewrite links_get_apply. by rewrite decide_False.
Qed.

(** X24: what a node counts.  In the trie built from the rows of a file, the
    node reached along an ending counts, for every gender, the rows whose
    word has this ending and this gender, and its total is the number of
    rows whose word has this ending. *)
Theorem from_rows_node_counts (rows : list (str * str)) (suffix g : str) :
  let node := node_of_suffix suffix (from_rows rows false) in
  counter_get (genders node) g
    = Z.of_nat (length (List.filter
        (fun row => endswith row.1 suffix && bool_decide (row.2 = g)) rows)) /\
  total node
    = Z.of_nat (length (List.filter (fun row => endswith row.1 suffix) rows)).
Proof.
  unfold node_of_suffix, from_rows, endswith.
  destruct (from_rows_loop_all rows (new true) ∅ (rev suffix) g) as [-> ->].
  unfold total. rewrite descend_new. unfold sum_values.
  cbn [counter_get foldr]. split; apply Z.add_0_l.
Qed.

(** X25: the total of the root is the number of rows read, and with [types]
    it is the number of different words among them. *)
Theorem from_rows_total (rows : list (str * str)) :
  total (from_rows rows false) = Z.of_nat (length rows) /\
  total (from_rows rows true)
    = Z.of_nat (size (list_to_set (map fst rows) : gset str)).
Proof.
  unfold from_rows. split.
  - destruct (from_rows_loop_all rows (new true) ∅ [] []) as [_ Ht].
    cbn [descend startswith] in Ht. rewrite Ht.
    replace (List.filter _ rows) with rows; [apply Z.add_0_l|].
    clear Ht. induction rows as [|row rows IH]; [done|].
    cbn [List.filter startswith]. by rewrite <- IH.
  - rewrite from_rows_loop_types.
    rewrite difference_disjoint_L by apply disjoint_empty_r. apply Z.add_0_l.
Qed.

(** The words of the docstring: pizza and plaza are feminine, palazzo is
    masculine. *)
Example trie_docstring :
  let root := from_rows [(u "pizza", u "f"); (u "plaza", u "f"); (u "palazzo", u "m")] false in
  total root = 3 /\
  genders (node_of_suffix (u "a") root) = [(u "f", 2)] /\
  genders (node_of_suffix (u "zza") root) = [(u "f", 1)] /\
  genders (node_of_suffix (u "o") root) = [(u "m", 1)].
Proof. by vm_compute. Qed.

End ProjectFacts.
